(** * Brier score family of rampwf (rampwf/score_types/brier_score.py)

    Shallow embedding of the four scorers [BrierScore], [BrierSkillScore],
    [BrierScoreReliability] and [BrierScoreResolution].

    Numeric model: a finite numpy float64 is abstracted by an exact rational
    in canonical form ([Qc]); the non-finite float64 values the code can
    produce (NaN, +inf, -inf) are explicit constructors of [f64].  Signed
    zero is not modelled (every zero is +0).  Python exceptions raised along
    the way (IndexError, ValueError, ZeroDivisionError) are the errors of a
    small result monad. *)

From Stdlib Require Import QArith Qcanon Qround List Lia Lqa Bool ZArith.
Import ListNotations.

Open Scope Qc_scope.

(** ** numpy float64 values *)

Inductive f64 : Type :=
| Fin (q : Qc)
| NaN
| PInf
| NInf.

(** Sign of a non-NaN value ([Eq] for zero). *)
Definition f_sign (x : f64) : comparison :=
  match x with
  | Fin a => a ?= 0
  | PInf => Gt
  | NInf => Lt
  | NaN => Eq
  end.

Definition f_neg (x : f64) : f64 :=
  match x with
  | Fin a => Fin (- a)
  | NaN => NaN
  | PInf => NInf
  | NInf => PInf
  end.

Definition f_add (x y : f64) : f64 :=
  match x, y with
  | NaN, _ | _, NaN => NaN
  | PInf, NInf | NInf, PInf => NaN
  | PInf, _ | _, PInf => PInf
  | NInf, _ | _, NInf => NInf
  | Fin a, Fin b => Fin (a + b)
  end.

Definition f_sub (x y : f64) : f64 := f_add x (f_neg y).

Definition f_mul (x y : f64) : f64 :=
  match x, y with
  | NaN, _ | _, NaN => NaN
  | Fin a, Fin b => Fin (a * b)
  | _, _ =>
      match f_sign x, f_sign y with
      | Eq, _ | _, Eq => NaN
      | Gt, Gt | Lt, Lt => PInf
      | _, _ => NInf
      end
  end.

(** float64 division as numpy does it under [errstate(divide='ignore')]:
    a warning at most, never an exception. *)
Definition f_div (x y : f64) : f64 :=
  match x, y with
  | NaN, _ | _, NaN => NaN
  | Fin a, Fin b =>
      match b ?= 0 with
      | Eq => match a ?= 0 with Eq => NaN | Gt => PInf | Lt => NInf end
      | _ => Fin (a / b)
      end
  | Fin _, _ => Fin 0
  | _, Fin _ =>
      match f_sign y with
      | Lt => f_neg x
      | _ => x
      end
  | _, _ => NaN
  end.

(** [x ** 2] on a float64. *)
Definition f_sq (x : f64) : f64 := f_mul x x.

(** ** Python errors *)

Inductive pyerr : Type := IndexError | ValueError | ZeroDivisionError.

Inductive result (A : Type) : Type :=
| Ok (a : A)
| Err (e : pyerr).
Arguments Ok {A} a.
Arguments Err {A} e.

Definition bind {A B} (m : result A) (k : A -> result B) : result B :=
  match m with
  | Ok a => k a
  | Err e => Err e
  end.

Notation "x <- m ;; k" := (bind m (fun x => k))
  (at level 61, m at next level, right associativity).

(** Python [float] division [a / b]: raises on a zero divisor. *)
Definition py_div (a b : Qc) : result Qc :=
  match b ?= 0 with
  | Eq => Err ZeroDivisionError
  | _ => Ok (a / b)
  end.

(** ** numpy arrays (one-dimensional) *)

Definition qn (n : nat) : Qc := Q2Qc (inject_Z (Z.of_nat n)).
Definition qz (z : Z) : Qc := Q2Qc (inject_Z z).

Fixpoint zip_with {A B C} (f : A -> B -> C) (a : list A) (b : list B) : list C :=
  match a, b with
  | x :: a', y :: b' => f x y :: zip_with f a' b'
  | _, _ => []
  end.

(** Element-wise binary operation with numpy broadcasting of length-1 arrays. *)
Definition bcast2 {A} (f : A -> A -> A) (a b : list A) : result (list A) :=
  if Nat.eqb (length a) (length b) then Ok (zip_with f a b)
  else match a, b with
       | [x], _ => Ok (map (f x) b)
       | _, [y] => Ok (map (fun x => f x y) a)
       | _, _ => Err ValueError
       end.

Definition f_sum (l : list f64) : f64 := fold_left f_add l (Fin 0).

(** [np.mean]: NaN (with a warning) on an empty array. *)
Definition np_mean (l : list f64) : f64 :=
  match l with
  | [] => NaN
  | _ => f_div (f_sum l) (Fin (qn (length l)))
  end.

(** [np.nansum]: NaN entries are treated as zero. *)
Definition nansum (l : list f64) : f64 :=
  f_sum (map (fun x => match x with NaN => Fin 0 | _ => x end) l).

(** Boolean-mask indexing [a[m]]: IndexError when the mask length differs. *)
Definition mask_select (a : list Qc) (m : list bool) : result (list Qc) :=
  if Nat.eqb (length a) (length m)
  then Ok (map fst (filter snd (combine a m)))
  else Err IndexError.

Definition qlt_b (x y : Qc) : bool :=
  match x ?= y with Lt => true | _ => false end.
Definition qle_b (x y : Qc) : bool :=
  match x ?= y with Gt => false | _ => true end.

(** [np.searchsorted(sorted(a), e, 'left')] and [..., 'right')]. *)
Definition count_lt (a : list Qc) (e : Qc) : nat :=
  length (filter (fun x => qlt_b x e) a).
Definition count_le (a : list Qc) (e : Qc) : nat :=
  length (filter (fun x => qle_b x e) a).

Fixpoint monotone (edges : list Qc) : bool :=
  match edges with
  | x :: ((y :: _) as t) => qle_b x y && monotone t
  | _ => true
  end.

(** [np.diff(cum_n)] where [cum_n] is the searchsorted cumulative count of
    numpy's histogram on explicit edges: 'left' on every edge but the last,
    'right' on the last one (the last bin is closed). *)
Fixpoint hist_counts (a : list Qc) (edges : list Qc) : list Z :=
  match edges with
  | lo :: ((hi :: []) as t) =>
      [(Z.of_nat (count_le a hi) - Z.of_nat (count_lt a lo))%Z]
  | lo :: ((hi :: _) as t) =>
      (Z.of_nat (count_lt a hi) - Z.of_nat (count_lt a lo))%Z :: hist_counts a t
  | _ => []
  end.

(** [np.histogram(a, bins=edges)[0]]. *)
Definition histogram (a edges : list Qc) : result (list Z) :=
  if monotone edges then Ok (hist_counts a edges) else Err ValueError.

(** [np.arange(start, stop, step)]. *)
Definition arange (start stop step : Qc) : list Qc :=
  map (fun i => start + qn i * step)
      (seq 0 (Z.to_nat (Qceiling (this ((stop - start) / step))))).

(** ** Inputs of [score_function] *)

(** [predictions.y_pred]: one row of two class probabilities per instance. *)
Record predictions : Type := mk_predictions { y_pred : list (Qc * Qc) }.

(** [ground_truths.y_pred_label_index]: the label index (0 or 1) per instance. *)
Record ground_truths : Type :=
  mk_ground_truths { y_pred_label_index : list Qc }.

(** [valid_indexes]: the whole array ([slice(None, None, None)]) or an index
    array of non-negative positions. *)
Inductive index_sel : Type :=
| SliceAll
| IndexArray (ix : list nat).

Fixpoint take_indexes {A} (a : list A) (ix : list nat) : result (list A) :=
  match ix with
  | [] => Ok []
  | i :: ix' =>
      match nth_error a i with
      | Some x => r <- take_indexes a ix' ;; Ok (x :: r)
      | None => Err IndexError
      end
  end.

(** [a[valid_indexes]]. *)
Definition select {A} (a : list A) (s : index_sel) : result (list A) :=
  match s with
  | SliceAll => Ok a
  | IndexArray ix => take_indexes a ix
  end.

(** Modelled from the spec: [BaseScoreType.check_y_pred_dimensions] (in
    rampwf/score_types/base.py, not part of this source) validates that the
    true and predicted arrays have equal length and signals a dimension
    mismatch failure otherwise. *)
Definition check_y_pred_dimensions (y_true y_pred : list Qc) : result unit :=
  if Nat.eqb (length y_true) (length y_pred) then Ok tt else Err ValueError.

(** [if valid_indexes is None: valid_indexes = slice(None, None, None)]. *)
Definition sel_of (valid_indexes : option index_sel) : index_sel :=
  match valid_indexes with None => SliceAll | Some s => s end.

(** [score_function], identical in the four scorers; [call] is the scorer's
    [__call__]. *)
Definition score_function (call : list Qc -> list Qc -> result f64)
    (gt : ground_truths) (pr : predictions) (valid_indexes : option index_sel)
    : result f64 :=
  let vi := sel_of valid_indexes in
  rows <- select (y_pred pr) vi ;;
  let y_proba := map snd rows in
  y_true_proba <- select (y_pred_label_index gt) vi ;;
  _ <- check_y_pred_dimensions y_true_proba y_proba ;;
  call y_true_proba y_proba.

(** ** BrierScore *)

(** [np.mean((y_proba - y_true_proba) ** 2)]. *)
Definition brier_call (y_true_proba y_proba : list Qc) : result f64 :=
  d <- bcast2 Qcminus y_proba y_true_proba ;;
  Ok (np_mean (map (fun e => f_sq (Fin e)) d)).

(** ** BrierSkillScore *)

(** [np.mean((y_true_proba.mean() - y_true_proba) ** 2)]. *)
Definition ref_variance (y_true_proba : list Qc) : f64 :=
  let m := np_mean (map Fin y_true_proba) in
  np_mean (map (fun y => f_sq (f_sub m (Fin y))) y_true_proba).

Definition skill_call (y_true_proba y_proba : list Qc) : result f64 :=
  d <- bcast2 Qcminus y_proba y_true_proba ;;
  let bs := np_mean (map (fun e => f_sq (Fin e)) d) in
  let bs_c := ref_variance y_true_proba in
  Ok (f_sub (Fin 1) (f_div bs bs_c)).

(** ** BrierScoreReliability and BrierScoreResolution: construction *)

Record binned_scorer : Type := mk_binned {
  bins : list Qc;
  bin_centers : list Qc
}.

(** [(bins[1:] - bins[:-1]) * 0.05], then entries above 1 set to 1 and
    entries below 0 set to 0. *)
Definition bin_centers_of (b : list Qc) : list Qc :=
  let raw := zip_with (fun hi lo => (hi - lo) * Q2Qc (1 # 20)) (tl b) (removelast b) in
  let c1 := map (fun c => if qlt_b 1 c then 1 else c) raw in
  map (fun c => if qlt_b c 0 then 0 else c) c1.

Definition init_binned (b : list Qc) : binned_scorer :=
  {| bins := b; bin_centers := bin_centers_of b |}.

(** [np.arange(0, 1.2, 0.1)]. *)
Definition default_bins : list Qc := arange 0 (Q2Qc (6 # 5)) (Q2Qc (1 # 10)).

(** ** Shared binning step of both [__call__] methods *)

(** [y_true_proba == 1]. *)
Definition is_one (y : Qc) : bool := Qc_eq_bool y 1.

(** [pos_obs_freq / fore_freq], element-wise on int64 arrays. *)
Definition rel_freq (pos_obs_freq fore_freq : list Z) : list f64 :=
  zip_with (fun p f => f_div (Fin (qz p)) (Fin (qz f))) pos_obs_freq fore_freq.

(** [fore_freq * dev ** 2], element-wise. *)
Definition weighted_sq (fore_freq : list Z) (dev : list f64) : list f64 :=
  zip_with (fun f d => f_mul (Fin (qz f)) (f_sq d)) fore_freq dev.

Definition reliability_call (s : binned_scorer) (y_true_proba y_proba : list Qc)
    : result f64 :=
  pos <- mask_select y_proba (map is_one y_true_proba) ;;
  pos_obs_freq <- histogram pos (bins s) ;;
  fore_freq <- histogram y_proba (bins s) ;;
  let pos_obs_rel_freq := rel_freq pos_obs_freq fore_freq in
  inv <- py_div 1 (qn (length y_proba)) ;;
  Ok (f_mul (Fin inv)
        (nansum (weighted_sq fore_freq
                   (zip_with f_sub (map Fin (bin_centers s)) pos_obs_rel_freq)))).

Definition resolution_call (s : binned_scorer) (y_true_proba y_proba : list Qc)
    : result f64 :=
  pos <- mask_select y_proba (map is_one y_true_proba) ;;
  pos_obs_freq <- histogram pos (bins s) ;;
  fore_freq <- histogram y_proba (bins s) ;;
  let climo := np_mean (map Fin y_true_proba) in
  let unc := f_mul climo (f_sub (Fin 1) climo) in
  let pos_obs_rel_freq := rel_freq pos_obs_freq fore_freq in
  inv <- py_div 1 (qn (length y_proba)) ;;
  let score := f_mul (Fin inv)
        (nansum (weighted_sq fore_freq
                   (map (fun r => f_sub r climo) pos_obs_rel_freq))) in
  Ok (f_div score unc).

(** The four [score_function]s. *)
Definition brier_score_function := score_function brier_call.
Definition skill_score_function := score_function skill_call.
Definition reliability_score_function (s : binned_scorer) :=
  score_function (reliability_call s).
Definition resolution_score_function (s : binned_scorer) :=
  score_function (resolution_call s).

Definition q (x : Q) : Qc := Q2Qc x.


(** ** Sums over finite values *)

Definition qsum (l : list Qc) : Qc := fold_right Qcplus 0 l.

(** ** Arithmetic toolkit *)

Ltac qc_unfold :=
  unfold Qcdiv, Qcminus in *; unfold Qcinv, Qcopp, Qcplus, Qcmult in *;
  unfold Qcle, Qclt, Q2Qc in *;
  cbn [this] in *; rewrite ?Qred_correct in *.

Lemma Qc_eq_Qeq (x y : Qc) : x = y -> (this x == this y)%Q.
Proof. intros ->. reflexivity. Qed.

Lemma Qc_compare_Q (x y : Qc) : (x ?= y) = (this x ?= this y)%Q.
Proof. reflexivity. Qed.

Lemma qn_this (n : nat) : this (qn n) = inject_Z (Z.of_nat n).
Proof.
  unfold qn, Q2Qc; cbn [this]. apply Qred_identity.
  exact (Z.gcd_1_r _).
Qed.

Lemma qn_pos (n : nat) : (0 < n)%nat -> 0 < qn n.
Proof.
  intro H. unfold Qclt. rewrite qn_this. simpl.
  unfold Qlt; simpl. lia.
Qed.

Lemma qn_compare (n : nat) : (0 < n)%nat -> (qn n ?= 0) = Gt.
Proof.
  intro H. apply qn_pos in H. unfold Qclt in H.
  rewrite Qc_compare_Q. apply Qgt_alt. exact H.
Qed.

Lemma fold_left_Qcplus (l : list Qc) (a : Qc) :
  fold_left Qcplus l a = a + qsum l.
Proof.
  revert a; induction l as [|x l IH]; intro a; simpl.
  - ring.
  - rewrite IH. ring.
Qed.

Lemma f_sum_fin (l : list Qc) : f_sum (map Fin l) = Fin (qsum l).
Proof.
  unfold f_sum.
  assert (G : forall a, fold_left f_add (map Fin l) (Fin a) = Fin (fold_left Qcplus l a)).
  { induction l as [|x l IH]; intro a; simpl; [reflexivity | apply IH]. }
  rewrite G, fold_left_Qcplus. f_equal. ring.
Qed.

Lemma np_mean_fin (l : list Qc) :
  l <> [] -> np_mean (map Fin l) = Fin (qsum l / qn (length l)).
Proof.
  intro Hne. destruct l as [|x l']; [congruence|].
  change (np_mean (map Fin (x :: l'))) with
    (f_div (f_sum (map Fin (x :: l'))) (Fin (qn (length (map Fin (x :: l')))))).
  rewrite f_sum_fin, length_map. simpl f_div.
  rewrite qn_compare by (simpl; lia). reflexivity.
Qed.

Lemma bcast2_same_length {A} (f : A -> A -> A) (a b : list A) :
  length a = length b -> bcast2 f a b = Ok (zip_with f a b).
Proof. intro H. unfold bcast2. rewrite H, Nat.eqb_refl. reflexivity. Qed.

Lemma length_zip_with {A B C} (f : A -> B -> C) a b :
  length (zip_with f a b) = Nat.min (length a) (length b).
Proof.
  revert b; induction a as [|x a IH]; intros [|y b]; simpl; auto.
Qed.

Lemma map_zip_with {A B C D} (g : C -> D) (f : A -> B -> C) a b :
  map g (zip_with f a b) = zip_with (fun x y => g (f x y)) a b.
Proof.
  revert b; induction a as [|x a IH]; intros [|y b]; simpl; f_equal; auto.
Qed.

Lemma zip_with_ext {A B C} (f g : A -> B -> C) a b :
  (forall x y, f x y = g x y) -> zip_with f a b = zip_with g a b.
Proof.
  intro H. revert b; induction a as [|x a IH]; intros [|y b]; simpl; f_equal; auto.
Qed.

(** Squared errors of aligned arrays. *)
Definition sq_errors (y_true_proba y_proba : list Qc) : list Qc :=
  zip_with (fun p t => (p - t) * (p - t)) y_proba y_true_proba.

Lemma brier_call_aligned (yt yp : list Qc) :
  length yt = length yp ->
  brier_call yt yp = Ok (np_mean (map Fin (sq_errors yt yp))).
Proof.
  intro Hlen. unfold brier_call.
  rewrite bcast2_same_length by congruence. simpl bind.
  f_equal. f_equal. unfold sq_errors.
  rewrite !map_zip_with. apply zip_with_ext. reflexivity.
Qed.

Lemma sq_errors_length yt yp :
  length yt = length yp -> length (sq_errors yt yp) = length yp.
Proof. intro H. unfold sq_errors. rewrite length_zip_with. lia. Qed.

(** ** Claim C1 *)

(** C1: on aligned arrays [BrierScore.__call__] returns the mean over all
    instances of [(y_proba - y_true_proba)^2]; on the example
    [y_true_proba = [0,0,1,1]], [y_proba = [0.1,0.2,0.8,0.9]] this is
    [mean([0.01,0.04,0.04,0.01]) = 0.025 = 1/40]. *)
Theorem brier_call_is_mean_sq_error (yt yp : list Qc) :
  length yt = length yp -> yp <> [] ->
  brier_call yt yp = Ok (Fin (qsum (sq_errors yt yp) / qn (length yp)))
  /\ brier_call [0; 0; 1; 1] [q (1 # 10); q (2 # 10); q (8 # 10); q (9 # 10)]
     = Ok (np_mean (map Fin [q (1 # 100); q (4 # 100); q (4 # 100); q (1 # 100)]))
  /\ np_mean (map Fin [q (1 # 100); q (4 # 100); q (4 # 100); q (1 # 100)])
     = Fin (q (1 # 40)).
Proof.
  intros Hlen Hne. split; [|split].
  - rewrite brier_call_aligned by exact Hlen.
    rewrite np_mean_fin, sq_errors_length by
      (try exact Hlen; intro E; apply (f_equal (@length Qc)) in E;
       rewrite sq_errors_length in E by exact Hlen;
       destruct yp; simpl in *; congruence).
    reflexivity.
  - vm_compute. reflexivity.
  - vm_compute. reflexivity.
Qed.

Lemma brier_call_is_mean_sq_error_witness :
  (length [0; 1] = length [q (1 # 4); q (3 # 4)] /\ [q (1 # 4); q (3 # 4)] <> [])
  /\ brier_call [0; 1] [q (1 # 4); q (3 # 4)]
     = Ok (Fin (qsum (sq_errors [0; 1] [q (1 # 4); q (3 # 4)]) / qn 2)).
Proof.
  split; [split; [reflexivity | discriminate] |].
  apply (brier_call_is_mean_sq_error [0; 1] [q (1 # 4); q (3 # 4)]);
    [reflexivity | discriminate].
Defined.

(** ** Comparisons *)

Lemma qlt_b_spec (x y : Qc) : qlt_b x y = true <-> x < y.
Proof.
  unfold qlt_b, Qclt. rewrite Qc_compare_Q, Qlt_alt.
  destruct (this x ?= this y)%Q; split; congruence.
Qed.

Lemma qle_b_spec (x y : Qc) : qle_b x y = true <-> x <= y.
Proof.
  unfold qle_b, Qcle. rewrite Qc_compare_Q, Qle_alt.
  destruct (this x ?= this y)%Q; split; congruence.
Qed.

Lemma Qc_list_eq (l1 l2 : list Qc) : map this l1 = map this l2 -> l1 = l2.
Proof.
  revert l2; induction l1 as [|x l1 IH]; intros [|y l2] H; simpl in H;
    try discriminate; [reflexivity|].
  injection H as Hxy Hl. f_equal; [apply Qc_decomp; exact Hxy | apply IH; exact Hl].
Qed.

(** ** Claim C2 *)

(** The bin centers as the spec describes them: midpoints of consecutive
    edges, clipped to [0,1].  Stated for comparison with [bin_centers_of]. *)
Definition midpoint_centers (b : list Qc) : list Qc :=
  let raw := zip_with (fun hi lo => (hi + lo) * q (1 # 2)) (tl b) (removelast b) in
  let c1 := map (fun c => if qlt_b 1 c then 1 else c) raw in
  map (fun c => if qlt_b c 0 then 0 else c) c1.

(** C2 (evaluated at the default edges): the code's bin centers are
    [(hi - lo) * 0.05], i.e. 0.005 for every default bin, not the midpoints;
    the sixth bin [[0.5, 0.6)] intersects [[0,1]] but its center 0.005 lies
    outside it, whereas its midpoint 0.55 lies inside. *)
Theorem default_bin_centers_not_midpoints :
  bin_centers_of default_bins = repeat (q (1 # 200)) 11
  /\ nth 5 default_bins 0 = q (1 # 2) /\ nth 6 default_bins 0 = q (3 # 5)
  /\ ~ (q (1 # 2) <= q (1 # 200))
  /\ nth 5 (midpoint_centers default_bins) 0 = q (11 # 20).
Proof.
  split; [|split; [|split; [|split]]].
  - apply Qc_list_eq. vm_compute. reflexivity.
  - apply Qc_decomp. vm_compute. reflexivity.
  - apply Qc_decomp. vm_compute. reflexivity.
  - unfold Qcle. vm_compute. intro H. apply H. reflexivity.
  - apply Qc_decomp. vm_compute. reflexivity.
Qed.

(** ** Claim C3 *)

Lemma count_lt_none (a : list Qc) (e : Qc) :
  (forall x, In x a -> e <= x) -> count_lt a e = 0%nat.
Proof.
  intro H. unfold count_lt. induction a as [|x a IH]; simpl; [reflexivity|].
  destruct (qlt_b x e) eqn:E.
  - apply qlt_b_spec in E. exfalso. specialize (H x (or_introl eq_refl)).
    unfold Qcle, Qclt in *. apply (Qlt_not_le _ _ E H).
  - apply IH. intros y Hy. apply H. right. exact Hy.
Qed.

Lemma count_le_all (a : list Qc) (e : Qc) :
  (forall x, In x a -> x <= e) -> count_le a e = length a.
Proof.
  intro H. unfold count_le. induction a as [|x a IH]; simpl; [reflexivity|].
  destruct (qle_b x e) eqn:E.
  - simpl. f_equal. apply IH. intros y Hy. apply H. right. exact Hy.
  - exfalso. assert (Hx : x <= e) by (apply H; left; reflexivity).
    apply qle_b_spec in Hx. congruence.
Qed.

Definition zsum (l : list Z) : Z := fold_right Z.add 0%Z l.

Lemma last_nonempty_default {A} (l : list A) (d d' : A) :
  l <> [] -> last l d = last l d'.
Proof.
  induction l as [|x l IH]; intro H; [congruence|].
  destruct l as [|y l]; [reflexivity|].
  simpl. simpl in IH. apply IH. discriminate.
Qed.

Lemma hist_counts_telescope (a : list Qc) (t : list Qc) (lo : Qc) :
  t <> [] ->
  zsum (hist_counts a (lo :: t))
  = (Z.of_nat (count_le a (last t lo)) - Z.of_nat (count_lt a lo))%Z.
Proof.
  revert lo; induction t as [|hi t IH]; intros lo Hne; [congruence|].
  destruct t as [|h2 t'].
  - unfold zsum. simpl. lia.
  - change (hist_counts a (lo :: hi :: h2 :: t'))
      with ((Z.of_nat (count_lt a hi) - Z.of_nat (count_lt a lo))%Z
            :: hist_counts a (hi :: h2 :: t')).
    cbn [zsum fold_right]. fold (zsum (hist_counts a (hi :: h2 :: t'))).
    rewrite IH by discriminate.
    rewrite (last_nonempty_default (h2 :: t') hi lo) by discriminate.
    change (last (hi :: h2 :: t') lo) with (last (h2 :: t') lo). lia.
Qed.

Lemma length_hist_counts (a : list Qc) (t : list Qc) (lo : Qc) :
  length (hist_counts a (lo :: t)) = length t.
Proof.
  revert lo; induction t as [|hi t IH]; intro lo; [reflexivity|].
  destruct t as [|h2 t']; [reflexivity|].
  change (hist_counts a (lo :: hi :: h2 :: t'))
    with ((Z.of_nat (count_lt a hi) - Z.of_nat (count_lt a lo))%Z
          :: hist_counts a (hi :: h2 :: t')).
  cbn [length]. rewrite IH. reflexivity.
Qed.

(** C3, as stated (ten default bins), fails: the default edges
    [np.arange(0, 1.2, 0.1)] are twelve, so there are eleven bins. *)
Lemma default_bins_not_ten :
  length (hist_counts [] default_bins) <> 10%nat
  /\ length (bin_centers_of default_bins) = 11%nat.
Proof. vm_compute. split; [discriminate | reflexivity]. Qed.

(** C3 (amended): the default edges are the twelve values 0, 0.1, ..., 1.1;
    they delimit eleven bins of width 0.1, and every forecast in [[0, 1.1]]
    is counted in exactly one of them. *)
Theorem default_bins_eleven_bins (a : list Qc) :
  (forall x, In x a -> 0 <= x <= q (11 # 10)) ->
  default_bins = map (fun i => qn i * q (1 # 10)) (seq 0 12)
  /\ zip_with Qcminus (tl default_bins) (removelast default_bins)
     = repeat (q (1 # 10)) 11
  /\ exists h, histogram a default_bins = Ok h
       /\ length h = 11%nat /\ zsum h = Z.of_nat (length a).
Proof.
  intro Ha. split; [|split].
  - apply Qc_list_eq. vm_compute. reflexivity.
  - apply Qc_list_eq. vm_compute. reflexivity.
  - exists (hist_counts a default_bins). split; [|split].
    + unfold histogram. vm_compute (monotone default_bins). reflexivity.
    + vm_compute (default_bins). rewrite length_hist_counts. reflexivity.
    + assert (E : default_bins = 0 :: tl default_bins)
        by (apply Qc_list_eq; vm_compute; reflexivity).
      rewrite E, hist_counts_telescope by (vm_compute; discriminate).
      assert (L : last (tl default_bins) 0 = q (11 # 10))
        by (apply Qc_decomp; vm_compute; reflexivity).
      rewrite L, count_le_all, count_lt_none; [lia| |].
      * intros x Hx. apply Ha. exact Hx.
      * intros x Hx. apply Ha. exact Hx.
Qed.

Lemma default_bins_eleven_bins_witness :
  (forall x, In x [q (1 # 2); q (11 # 10)] -> 0 <= x <= q (11 # 10))
  /\ exists h, histogram [q (1 # 2); q (11 # 10)] default_bins = Ok h
       /\ length h = 11%nat /\ zsum h = 2%Z.
Proof.
  assert (H : forall x, In x [q (1 # 2); q (11 # 10)] -> 0 <= x <= q (11 # 10)).
  { intros x [<-|[<-|[]]]; unfold Qcle; vm_compute; split; discriminate. }
  split; [exact H|].
  apply (default_bins_eleven_bins [q (1 # 2); q (11 # 10)] H).
Defined.

(** ** Claim C4 *)

(** C4: whenever the selected true-outcome column and second-class
    probability column differ in length, the [score_function] of every
    scorer (any [__call__]) fails with the dimension-mismatch error and never
    reaches the formula. *)
Theorem score_function_dimension_mismatch
    (call : list Qc -> list Qc -> result f64) (gt : ground_truths)
    (pr : predictions) (valid_indexes : option index_sel)
    (rows : list (Qc * Qc)) (y_true_proba : list Qc) :
  select (y_pred pr) (sel_of valid_indexes) = Ok rows ->
  select (y_pred_label_index gt) (sel_of valid_indexes) = Ok y_true_proba ->
  length y_true_proba <> length (map snd rows) ->
  score_function call gt pr valid_indexes = Err ValueError.
Proof.
  intros Hp Ht Hlen. unfold score_function.
  rewrite Hp. simpl bind. rewrite Ht. simpl bind.
  unfold check_y_pred_dimensions.
  destruct (Nat.eqb_spec (length y_true_proba) (length (map snd rows)));
    [contradiction | reflexivity].
Qed.

Definition ex_gt4 : ground_truths := mk_ground_truths [0; 0; 1; 1].
Definition ex_pr3 : predictions :=
  mk_predictions [(q (9 # 10), q (1 # 10)); (q (8 # 10), q (2 # 10));
                  (q (2 # 10), q (8 # 10))].

Lemma score_function_dimension_mismatch_witness :
  brier_score_function ex_gt4 ex_pr3 None = Err ValueError.
Proof.
  apply (score_function_dimension_mismatch brier_call ex_gt4 ex_pr3 None
           (y_pred ex_pr3) (y_pred_label_index ex_gt4));
    [reflexivity | reflexivity | simpl; discriminate].
Defined.

(** ** Claim C7 *)

Lemma take_indexes_suffix {A} (pre l : list A) :
  take_indexes (pre ++ l) (seq (length pre) (length l)) = Ok l.
Proof.
  revert pre; induction l as [|x l IH]; intro pre; [reflexivity|].
  cbn [length seq take_indexes].
  rewrite nth_error_app2, Nat.sub_diag by lia. cbn [nth_error].
  specialize (IH (pre ++ [x])).
  rewrite <- app_assoc, length_app, Nat.add_1_r in IH. simpl in IH.
  rewrite IH. reflexivity.
Qed.

Lemma take_indexes_all {A} (a : list A) :
  take_indexes a (seq 0 (length a)) = Ok a.
Proof. exact (take_indexes_suffix [] a). Qed.

(** C7: for aligned ground truths and predictions, [score_function] with
    [valid_indexes = None] equals [score_function] with the explicit index
    array [0, 1, ..., n-1] of all positions, for every scorer. *)
Theorem score_function_none_eq_all_positions
    (call : list Qc -> list Qc -> result f64) (gt : ground_truths)
    (pr : predictions) :
  length (y_pred pr) = length (y_pred_label_index gt) ->
  score_function call gt pr None
  = score_function call gt pr (Some (IndexArray (seq 0 (length (y_pred pr))))).
Proof.
  intro Hlen. unfold score_function, sel_of, select.
  rewrite take_indexes_all, Hlen, take_indexes_all. reflexivity.
Qed.

Definition ex_pr4 : predictions :=
  mk_predictions [(q (9 # 10), q (1 # 10)); (q (8 # 10), q (2 # 10));
                  (q (2 # 10), q (8 # 10)); (q (1 # 10), q (9 # 10))].

Lemma score_function_none_eq_all_positions_witness :
  length (y_pred ex_pr4) = length (y_pred_label_index ex_gt4)
  /\ reliability_score_function (init_binned default_bins) ex_gt4 ex_pr4 None
     = reliability_score_function (init_binned default_bins) ex_gt4 ex_pr4
         (Some (IndexArray [0; 1; 2; 3]%nat)).
Proof.
  split; [reflexivity|].
  apply (score_function_none_eq_all_positions
           (reliability_call (init_binned default_bins)) ex_gt4 ex_pr4).
  reflexivity.
Defined.

(** ** Claim C10 *)

(** C10: on the empty input the direct formula of Reliability and Resolution
    raises ZeroDivisionError at [1 / float(y_proba.size)], while BrierScore
    returns NaN on the same input. *)
Theorem empty_input_zero_division (b : list Qc) :
  monotone b = true ->
  reliability_call (init_binned b) [] [] = Err ZeroDivisionError
  /\ resolution_call (init_binned b) [] [] = Err ZeroDivisionError
  /\ brier_call [] [] = Ok NaN.
Proof.
  intro Hm. unfold reliability_call, resolution_call, histogram; cbn [bins init_binned].
  rewrite Hm. split; [|split]; reflexivity.
Qed.

Lemma empty_input_zero_division_witness :
  monotone default_bins = true
  /\ reliability_call (init_binned default_bins) [] [] = Err ZeroDivisionError.
Proof.
  assert (H : monotone default_bins = true) by (vm_compute; reflexivity).
  split; [exact H|].
  apply (empty_input_zero_division default_bins H).
Defined.

(** ** Sums of repeated values and of non-negative values *)

Lemma qn_S (n : nat) : qn (S n) = qn n + 1.
Proof.
  apply Qc_is_canon. rewrite qn_this. unfold Qcplus, Q2Qc. cbn [this].
  rewrite Qred_correct, qn_this. change (this 1) with 1%Q.
  unfold Qeq. simpl. lia.
Qed.

Lemma qn_nonzero (n : nat) : (0 < n)%nat -> qn n <> 0.
Proof.
  intros H E. apply qn_pos in H. rewrite E in H. exact (Qlt_irrefl _ H).
Qed.

Lemma qsum_repeat (c : Qc) (n : nat) : qsum (repeat c n) = qn n * c.
Proof.
  induction n as [|n IH]; simpl.
  - apply Qc_decomp. reflexivity.
  - rewrite IH, qn_S. ring.
Qed.

Lemma np_mean_repeat (c : Qc) (n : nat) :
  (0 < n)%nat -> np_mean (map Fin (repeat c n)) = Fin c.
Proof.
  intro H. rewrite np_mean_fin.
  - rewrite repeat_length, qsum_repeat. f_equal. field. apply qn_nonzero, H.
  - destruct n; [lia | discriminate].
Qed.

Lemma Qc_sq_nonneg (x : Qc) : 0 <= x * x.
Proof. qc_unfold. nra. Qed.

Lemma qsum_nonneg (l : list Qc) : (forall x, In x l -> 0 <= x) -> 0 <= qsum l.
Proof.
  induction l as [|x l IH]; intro H; simpl.
  - apply Qcle_refl.
  - assert (Hx : 0 <= x) by (apply H; left; reflexivity).
    assert (Hl : 0 <= qsum l) by (apply IH; intros y Hy; apply H; right; exact Hy).
    unfold Qcle in *. qc_unfold. lra.
Qed.

Lemma In_zip_with {A B C} (f : A -> B -> C) a b z :
  In z (zip_with f a b) -> exists x y, In x a /\ In y b /\ z = f x y.
Proof.
  revert b; induction a as [|x a IH]; intros [|y b] H; simpl in H; try contradiction.
  destruct H as [<-|H].
  - exists x, y. simpl. auto.
  - destruct (IH b H) as (x' & y' & Hx & Hy & ->). exists x', y'. simpl. auto.
Qed.

Lemma sq_errors_nonneg (yt yp : list Qc) :
  forall x, In x (sq_errors yt yp) -> 0 <= x.
Proof.
  intros x Hx. unfold sq_errors in Hx.
  apply In_zip_with in Hx. destruct Hx as (p & t & _ & _ & ->).
  apply Qc_sq_nonneg.
Qed.

Lemma Qcdiv_nonneg (a b : Qc) : 0 <= a -> 0 < b -> 0 <= a / b.
Proof.
  intros Ha Hb. qc_unfold. apply Qle_shift_div_l; [exact Hb|]. lra.
Qed.

Lemma map_sq_sub_repeat (c : Qc) (n : nat) :
  map (fun y => f_sq (f_sub (Fin c) (Fin y))) (repeat c n) = map Fin (repeat 0 n).
Proof.
  induction n as [|n IH]; [reflexivity|].
  cbn [repeat map]. rewrite IH. f_equal.
  unfold f_sq, f_sub, f_neg, f_add, f_mul. f_equal. ring.
Qed.

(** ** Claim C6 *)

(** C6: when all ground-truth outcomes are one identical value, the
    reference variance [np.mean((y_true_proba.mean() - y_true_proba) ** 2)]
    is exactly 0 and the skill score is [1 - bs / 0] evaluated with no guard:
    under numpy's zero-division convention it is NaN when the Brier score
    [bs] is 0 and -inf otherwise. *)
Theorem skill_identical_outcomes_zero_division (c : Qc) (n : nat) (yp : list Qc) :
  (0 < n)%nat -> length yp = n ->
  ref_variance (repeat c n) = Fin 0
  /\ exists bs,
       brier_call (repeat c n) yp = Ok (Fin bs)
       /\ skill_call (repeat c n) yp = Ok (f_sub (Fin 1) (f_div (Fin bs) (Fin 0)))
       /\ (bs = 0 -> skill_call (repeat c n) yp = Ok NaN)
       /\ (bs <> 0 -> skill_call (repeat c n) yp = Ok NInf).
Proof.
  intros Hn Hlen.
  assert (Hrv : ref_variance (repeat c n) = Fin 0).
  { unfold ref_variance. rewrite np_mean_repeat by exact Hn.
    assert (E : map (fun y => f_sq (f_sub (Fin c) (Fin y))) (repeat c n)
                = map Fin (repeat 0 n)).
    { apply map_sq_sub_repeat. }
    rewrite E, np_mean_repeat by exact Hn. reflexivity. }
  split; [exact Hrv|].
  assert (Hl : length (repeat c n) = length yp) by (rewrite repeat_length; lia).
  set (bs := qsum (sq_errors (repeat c n) yp) / qn (length yp)).
  assert (Hne : sq_errors (repeat c n) yp <> []).
  { intro E. apply (f_equal (@length Qc)) in E.
    rewrite sq_errors_length in E by exact Hl. simpl in E. lia. }
  assert (Hb : brier_call (repeat c n) yp = Ok (Fin bs)).
  { rewrite brier_call_aligned by exact Hl. rewrite np_mean_fin by exact Hne.
    rewrite sq_errors_length by exact Hl. reflexivity. }
  assert (Hs : skill_call (repeat c n) yp = Ok (f_sub (Fin 1) (f_div (Fin bs) (Fin 0)))).
  { unfold skill_call. rewrite bcast2_same_length by congruence. simpl bind.
    rewrite Hrv. unfold brier_call in Hb.
    rewrite bcast2_same_length in Hb by congruence. simpl bind in Hb.
    injection Hb as Hb. rewrite Hb. reflexivity. }
  assert (Hpos : 0 <= bs).
  { unfold bs. apply Qcdiv_nonneg; [apply qsum_nonneg, sq_errors_nonneg|].
    apply qn_pos. lia. }
  exists bs. split; [exact Hb|]. split; [exact Hs|]. split.
  - intro E. rewrite Hs, E. reflexivity.
  - intro E. rewrite Hs. unfold f_div.
    change (Qccompare 0 0) with Eq.
    assert (G : (bs ?= 0) = Gt).
    { rewrite Qc_compare_Q. apply Qgt_alt.
      destruct (Qle_lt_or_eq _ _ Hpos) as [H|H]; [exact H|].
      exfalso. apply E. apply Qc_is_canon. symmetry. exact H. }
    rewrite G. reflexivity.
Qed.

Lemma skill_identical_outcomes_zero_division_witness :
  ((0 < 3)%nat /\ length [q (1 # 2); 1; 1] = 3%nat)
  /\ ref_variance (repeat 1 3) = Fin 0.
Proof.
  split; [split; [lia | reflexivity]|].
  apply (skill_identical_outcomes_zero_division 1 3 [q (1 # 2); 1; 1]);
    [lia | reflexivity].
Defined.

(** ** Claim C8 *)

Lemma sq_error_le_1 (p t : Qc) : 0 <= p <= 1 -> 0 <= t <= 1 -> (p - t) * (p - t) <= 1.
Proof. intros [Hp1 Hp2] [Ht1 Ht2]. qc_unfold. nra. Qed.

Lemma qsum_le_length (l : list Qc) :
  (forall x, In x l -> x <= 1) -> qsum l <= qn (length l).
Proof.
  induction l as [|x l IH]; intro H; simpl.
  - apply Qcle_refl.
  - rewrite qn_S.
    assert (Hx : x <= 1) by (apply H; left; reflexivity).
    assert (Hl : qsum l <= qn (length l))
      by (apply IH; intros y Hy; apply H; right; exact Hy).
    rewrite Qcplus_comm. apply Qcplus_le_compat; assumption.
Qed.

Lemma Qcdiv_le_1 (a b : Qc) : 0 < b -> a <= b -> a / b <= 1.
Proof.
  intros Hb Hab. qc_unfold. apply Qle_shift_div_r; [exact Hb|]. lra.
Qed.

Lemma Qc_nonneg_sum_zero (a b : Qc) : 0 <= a -> 0 <= b -> a + b = 0 -> a = 0 /\ b = 0.
Proof.
  intros Ha Hb E.
  assert (EQ : (this (a + b) == this 0)%Q) by (rewrite E; reflexivity).
  qc_unfold. change (this 0) with 0%Q in *.
  split; apply Qc_is_canon; cbn [this]; change (Qred 0) with 0%Q; lra.
Qed.

Lemma sq_zero_iff (p t : Qc) : (p - t) * (p - t) = 0 <-> p = t.
Proof.
  split.
  - intro E. apply Qcmult_integral in E. destruct E as [E|E];
      replace p with ((p - t) + t) by ring; rewrite E; ring.
  - intros ->. ring.
Qed.

Lemma qsum_sq_errors_zero_iff (yt yp : list Qc) :
  length yt = length yp -> qsum (sq_errors yt yp) = 0 <-> yp = yt.
Proof.
  revert yt; induction yp as [|p yp IH]; intros [|t yt] Hlen; simpl in Hlen;
    try discriminate; [split; reflexivity|].
  injection Hlen as Hlen.
  change (qsum (sq_errors (t :: yt) (p :: yp)))
    with ((p - t) * (p - t) + qsum (sq_errors yt yp)).
  split.
  - intro E. apply Qc_nonneg_sum_zero in E;
      [| apply Qc_sq_nonneg | apply qsum_nonneg, sq_errors_nonneg].
    destruct E as [E1 E2]. apply (proj1 (sq_zero_iff p t)) in E1.
    apply IH in E2; [|exact Hlen].
    subst. reflexivity.
  - intro E. injection E as -> ->.
    assert (Z : qsum (sq_errors yt yt) = 0) by (apply IH; reflexivity).
    rewrite Z. ring.
Qed.

(** C8: for non-empty aligned arrays with forecasts in [[0,1]] and outcomes
    in {0,1}, the Brier score lies in [[0,1]] and is 0 exactly when every
    forecast equals its outcome. *)
Theorem brier_in_unit_interval (yt yp : list Qc) :
  length yt = length yp -> yp <> [] ->
  (forall t, In t yt -> t = 0 \/ t = 1) ->
  (forall p, In p yp -> 0 <= p <= 1) ->
  exists b, brier_call yt yp = Ok (Fin b) /\ 0 <= b <= 1 /\ (b = 0 <-> yp = yt).
Proof.
  intros Hlen Hne Ht Hp.
  assert (Hn : 0 < qn (length yp)) by (apply qn_pos; destruct yp; [congruence | simpl; lia]).
  assert (Hse : sq_errors yt yp <> []).
  { intro E. apply (f_equal (@length Qc)) in E.
    rewrite sq_errors_length in E by exact Hlen. destruct yp; [congruence | discriminate]. }
  exists (qsum (sq_errors yt yp) / qn (length yp)). split; [|split; [split|]].
  - rewrite brier_call_aligned by exact Hlen. rewrite np_mean_fin by exact Hse.
    rewrite sq_errors_length by exact Hlen. reflexivity.
  - apply Qcdiv_nonneg; [apply qsum_nonneg, sq_errors_nonneg | exact Hn].
  - apply Qcdiv_le_1; [exact Hn|].
    rewrite <- (sq_errors_length yt yp Hlen). apply qsum_le_length.
    intros x Hx. unfold sq_errors in Hx. apply In_zip_with in Hx.
    destruct Hx as (p & t & Hpin & Htin & ->). apply sq_error_le_1.
    + apply Hp, Hpin.
    + destruct (Ht t Htin) as [-> | ->]; unfold Qcle; vm_compute; split; discriminate.
  - rewrite <- qsum_sq_errors_zero_iff by exact Hlen. split.
    + intro E. replace (qsum (sq_errors yt yp))
        with ((qsum (sq_errors yt yp) / qn (length yp)) * qn (length yp)).
      * rewrite E. ring.
      * field. apply Qclt_not_eq in Hn. intro Z. apply Hn. symmetry. exact Z.
    + intro E. rewrite E. field. apply Qclt_not_eq in Hn. intro Z. apply Hn. symmetry. exact Z.
Qed.

Lemma brier_in_unit_interval_witness :
  exists b, brier_call [0; 0; 1; 1] [q (1 # 10); q (2 # 10); q (8 # 10); q (9 # 10)]
            = Ok (Fin b) /\ 0 <= b <= 1
            /\ (b = 0 <-> [q (1 # 10); q (2 # 10); q (8 # 10); q (9 # 10)] = [0; 0; 1; 1]).
Proof.
  apply brier_in_unit_interval.
  - reflexivity.
  - discriminate.
  - intros t [<-|[<-|[<-|[<-|[]]]]]; auto.
  - intros p [<-|[<-|[<-|[<-|[]]]]]; unfold Qcle; vm_compute; split; discriminate.
Defined.

(** ** Histogram bins as filters *)

(** Membership of [x] in the bin [[lo, hi)], or [[lo, hi]] for the last bin. *)
Definition in_bin (lo hi : Qc) (closed : bool) (x : Qc) : bool :=
  qle_b lo x && (if closed then qle_b x hi else qlt_b x hi).

Lemma qle_b_negb (lo x : Qc) : qle_b lo x = negb (qlt_b x lo).
Proof.
  unfold qle_b, qlt_b. rewrite !Qc_compare_Q, <- Qcompare_antisym.
  destruct (this x ?= this lo)%Q; reflexivity.
Qed.

Lemma qlt_le_b_trans (x lo hi : Qc) :
  qle_b lo hi = true -> qlt_b x lo = true -> qlt_b x hi = true.
Proof.
  rewrite qle_b_spec, !qlt_b_spec. unfold Qcle, Qclt. intros H1 H2.
  apply (Qlt_le_trans _ _ _ H2 H1).
Qed.

Lemma qlt_le_b (x y : Qc) : qlt_b x y = true -> qle_b x y = true.
Proof.
  rewrite qle_b_spec, qlt_b_spec. unfold Qcle, Qclt. apply Qlt_le_weak.
Qed.

Lemma count_lt_split (a : list Qc) (lo hi : Qc) :
  qle_b lo hi = true ->
  count_lt a hi = (count_lt a lo + length (filter (in_bin lo hi false) a))%nat.
Proof.
  intro Hm. unfold count_lt, in_bin.
  induction a as [|x a IH]; [reflexivity|]. cbn [filter].
  rewrite (qle_b_negb lo x).
  destruct (qlt_b x lo) eqn:Elo.
  - rewrite (qlt_le_b_trans x lo hi Hm Elo). simpl. lia.
  - destruct (qlt_b x hi); simpl; lia.
Qed.

Lemma count_le_split (a : list Qc) (lo hi : Qc) :
  qle_b lo hi = true ->
  count_le a hi = (count_lt a lo + length (filter (in_bin lo hi true) a))%nat.
Proof.
  intro Hm. unfold count_lt, count_le, in_bin.
  induction a as [|x a IH]; [reflexivity|]. cbn [filter].
  rewrite (qle_b_negb lo x).
  destruct (qlt_b x lo) eqn:Elo.
  - rewrite (qlt_le_b x hi (qlt_le_b_trans x lo hi Hm Elo)). simpl. lia.
  - destruct (qle_b x hi); simpl; lia.
Qed.

Lemma filter_mask_le (P : Qc -> bool) (yp : list Qc) (m : list bool) :
  (length (filter P (map fst (filter snd (combine yp m))))
   <= length (filter P yp))%nat.
Proof.
  revert m; induction yp as [|x yp IH]; intros [|b m]; simpl; try lia.
  specialize (IH m). destruct b; simpl; destruct (P x); simpl; lia.
Qed.

(** The positive-outcome forecasts, a masked sub-array of the forecasts, fall
    in no bin that holds no forecast. *)
Lemma hist_counts_mask_empty (edges yp : list Qc) (m : list bool) :
  monotone edges = true ->
  Forall2 (fun p f => f = 0%Z -> p = 0%Z)
    (hist_counts (map fst (filter snd (combine yp m))) edges) (hist_counts yp edges).
Proof.
  set (pos := map fst (filter snd (combine yp m))).
  induction edges as [|lo t IH]; intro Hm; [constructor|].
  destruct t as [|hi t']; [constructor|].
  simpl in Hm. apply andb_prop in Hm. destruct Hm as [Hlh Ht].
  destruct t' as [|h2 t''].
  - cbn [hist_counts]. constructor; [|constructor].
    rewrite !(count_le_split _ lo hi Hlh).
    pose proof (filter_mask_le (in_bin lo hi true) yp m). fold pos in H. lia.
  - change (hist_counts pos (lo :: hi :: h2 :: t''))
      with ((Z.of_nat (count_lt pos hi) - Z.of_nat (count_lt pos lo))%Z
            :: hist_counts pos (hi :: h2 :: t'')).
    change (hist_counts yp (lo :: hi :: h2 :: t''))
      with ((Z.of_nat (count_lt yp hi) - Z.of_nat (count_lt yp lo))%Z
            :: hist_counts yp (hi :: h2 :: t'')).
    constructor; [|apply IH, Ht].
    rewrite !(count_lt_split _ lo hi Hlh).
    pose proof (filter_mask_le (in_bin lo hi false) yp m). fold pos in H. lia.
Qed.

Lemma length_hist_counts_all (a edges : list Qc) :
  length (hist_counts a edges) = (length edges - 1)%nat.
Proof.
  destruct edges as [|lo t]; [reflexivity|].
  rewrite length_hist_counts. simpl. lia.
Qed.

Lemma length_removelast {A} (l : list A) : length (removelast l) = (length l - 1)%nat.
Proof.
  induction l as [|x l IH]; [reflexivity|].
  destruct l as [|y l]; [reflexivity|].
  change (removelast (x :: y :: l)) with (x :: removelast (y :: l)).
  simpl length in *. rewrite IH. lia.
Qed.

Lemma length_bin_centers_of (b : list Qc) :
  length (bin_centers_of b) = (length b - 1)%nat.
Proof.
  unfold bin_centers_of. rewrite !length_map, length_zip_with, length_removelast.
  destruct b; simpl; lia.
Qed.

(** ** Per-bin terms *)

Definition empty_bin {A} (x : Z * A) : bool := Z.eqb (fst x) 0.
Definition nonempty_bin {A} (x : Z * A) : bool := negb (empty_bin x).

(** [fore_freq * (bin_center - pos_obs_rel_freq) ** 2] of a non-empty bin. *)
Definition rel_term (x : Z * (Z * Qc)) : Qc :=
  let '(f, (p, c)) := x in qz f * ((c - qz p / qz f) * (c - qz p / qz f)).

(** [fore_freq * (pos_obs_rel_freq - climo) ** 2] of a non-empty bin. *)
Definition res_term (climo : Qc) (x : Z * Z) : Qc :=
  let '(f, p) := x in qz f * ((qz p / qz f - climo) * (qz p / qz f - climo)).

(** [y_true_proba.mean()] of a non-empty array. *)
Definition climatology (y_true_proba : list Qc) : Qc :=
  qsum y_true_proba / qn (length y_true_proba).

Lemma qz_cmp (z : Z) : (qz z ?= 0) = (z ?= 0)%Z.
Proof.
  rewrite Qc_compare_Q. unfold qz, Q2Qc. cbn [this].
  rewrite <- Qred_compare. unfold Qcompare. simpl. rewrite Z.mul_1_r. reflexivity.
Qed.

Lemma f_div_counts_zero : f_div (Fin (qz 0)) (Fin (qz 0)) = NaN.
Proof. unfold f_div. rewrite qz_cmp. reflexivity. Qed.

Lemma f_div_counts_nonzero (p f : Z) :
  f <> 0%Z -> f_div (Fin (qz p)) (Fin (qz f)) = Fin (qz p / qz f).
Proof.
  intro H. unfold f_div. rewrite qz_cmp.
  destruct (f ?= 0)%Z eqn:E; [apply Z.compare_eq_iff in E; contradiction | reflexivity..].
Qed.

Lemma rel_freq_shape (pof ff : list Z) :
  Forall2 (fun p f => f = 0%Z -> p = 0%Z) pof ff ->
  rel_freq pof ff
  = map (fun x => if Z.eqb (snd x) 0 then NaN else Fin (qz (fst x) / qz (snd x)))
        (combine pof ff).
Proof.
  induction 1 as [|p f pof ff Hpf _ IH]; [reflexivity|].
  cbn [rel_freq zip_with combine map fst snd]. unfold rel_freq in IH. rewrite IH.
  destruct (Z.eqb_spec f 0) as [E|E].
  - subst f. rewrite (Hpf eq_refl). rewrite f_div_counts_zero. reflexivity.
  - rewrite f_div_counts_nonzero by exact E. reflexivity.
Qed.

Lemma reliability_terms_shape (pof ff : list Z) (centers : list Qc) :
  Forall2 (fun p f => f = 0%Z -> p = 0%Z) pof ff ->
  length centers = length ff ->
  weighted_sq ff (zip_with f_sub (map Fin centers) (rel_freq pof ff))
  = map (fun x => if empty_bin x then NaN else Fin (rel_term x))
        (combine ff (combine pof centers)).
Proof.
  intro HF. revert centers.
  induction HF as [|p f pof ff Hpf _ IH]; intros [|c cs] Hc; simpl in Hc;
    try discriminate; [reflexivity|].
  injection Hc as Hc.
  cbn [rel_freq weighted_sq zip_with map combine]. unfold rel_freq, weighted_sq in IH.
  rewrite IH by exact Hc. f_equal. unfold empty_bin. cbn [fst].
  destruct (Z.eqb_spec f 0) as [E|E].
  - subst f. rewrite (Hpf eq_refl), f_div_counts_zero. reflexivity.
  - rewrite f_div_counts_nonzero by exact E. reflexivity.
Qed.

Lemma resolution_terms_shape (pof ff : list Z) (climo : Qc) :
  Forall2 (fun p f => f = 0%Z -> p = 0%Z) pof ff ->
  weighted_sq ff (map (fun r => f_sub r (Fin climo)) (rel_freq pof ff))
  = map (fun x => if empty_bin x then NaN else Fin (res_term climo x))
        (combine ff pof).
Proof.
  induction 1 as [|p f pof ff Hpf _ IH]; [reflexivity|].
  cbn [rel_freq weighted_sq zip_with map combine]. unfold rel_freq, weighted_sq in IH.
  rewrite IH. f_equal. unfold empty_bin. cbn [fst].
  destruct (Z.eqb_spec f 0) as [E|E].
  - subst f. rewrite (Hpf eq_refl), f_div_counts_zero. reflexivity.
  - rewrite f_div_counts_nonzero by exact E. reflexivity.
Qed.

Lemma nansum_guarded {A} (g : A -> bool) (h : A -> Qc) (l : list A) :
  nansum (map (fun a => if g a then NaN else Fin (h a)) l)
  = Fin (qsum (map h (filter (fun a => negb (g a)) l))).
Proof.
  unfold nansum. rewrite map_map.
  rewrite (map_ext _ (fun a => Fin (if g a then 0 else h a)))
    by (intro a; destruct (g a); reflexivity).
  rewrite <- (map_map (fun a => if g a then 0 else h a) Fin), f_sum_fin.
  f_equal. induction l as [|a l IH]; [reflexivity|]. simpl.
  destruct (g a); simpl; rewrite IH; [ring | reflexivity].
Qed.

Lemma py_div_len (n : nat) : (0 < n)%nat -> py_div 1 (qn n) = Ok (1 / qn n).
Proof. intro H. unfold py_div. rewrite qn_compare by exact H. reflexivity. Qed.

Lemma mask_select_aligned (yt yp : list Qc) :
  length yt = length yp ->
  mask_select yp (map is_one yt) = Ok (map fst (filter snd (combine yp (map is_one yt)))).
Proof.
  intro H. unfold mask_select. rewrite length_map, H, Nat.eqb_refl. reflexivity.
Qed.

Lemma binned_calls_nonempty_bins (b yt yp : list Qc) :
  monotone b = true -> length yt = length yp -> yp <> [] ->
  exists pos pof ff,
    mask_select yp (map is_one yt) = Ok pos
    /\ histogram pos b = Ok pof /\ histogram yp b = Ok ff
    /\ rel_freq pof ff
       = map (fun x => if Z.eqb (snd x) 0 then NaN else Fin (qz (fst x) / qz (snd x)))
             (combine pof ff)
    /\ reliability_call (init_binned b) yt yp
       = Ok (Fin (1 / qn (length yp)
                  * qsum (map rel_term
                            (filter nonempty_bin
                               (combine ff (combine pof (bin_centers_of b)))))))
    /\ resolution_call (init_binned b) yt yp
       = Ok (f_div
               (Fin (1 / qn (length yp)
                     * qsum (map (res_term (climatology yt))
                               (filter nonempty_bin (combine ff pof)))))
               (Fin (climatology yt * (1 - climatology yt)))).
Proof.
  intros Hm Hlen Hne.
  set (pos := map fst (filter snd (combine yp (map is_one yt)))).
  assert (Hn : (0 < length yp)%nat) by (destruct yp; [congruence | simpl; lia]).
  assert (HF := hist_counts_mask_empty b yp (map is_one yt) Hm). fold pos in HF.
  assert (Hc : length (bin_centers_of b) = length (hist_counts yp b))
    by (rewrite length_bin_centers_of, length_hist_counts_all; reflexivity).
  assert (Hyt : yt <> []) by (destruct yt, yp; simpl in *; congruence || lia).
  exists pos, (hist_counts pos b), (hist_counts yp b).
  split; [apply mask_select_aligned, Hlen|].
  split; [unfold histogram; rewrite Hm; reflexivity|].
  split; [unfold histogram; rewrite Hm; reflexivity|].
  split; [apply rel_freq_shape, HF|].
  split.
  - unfold reliability_call. rewrite mask_select_aligned by exact Hlen.
    cbn [bind bins bin_centers init_binned]. fold pos.
    unfold histogram. rewrite Hm. cbn [bind].
    rewrite py_div_len by exact Hn. cbn [bind].
    rewrite reliability_terms_shape by assumption.
    rewrite nansum_guarded. reflexivity.
  - unfold resolution_call. rewrite mask_select_aligned by exact Hlen.
    cbn [bind bins init_binned]. fold pos.
    unfold histogram. rewrite Hm. cbn [bind].
    rewrite py_div_len by exact Hn. cbn [bind].
    rewrite np_mean_fin by exact Hyt. fold (climatology yt).
    rewrite resolution_terms_shape by assumption.
    rewrite nansum_guarded. reflexivity.
Qed.

(** ** Claim C5 *)

(** C5: with non-decreasing bin edges and at least one (aligned) instance,
    each bin holding no forecast gets a NaN observed relative frequency, and
    both Reliability and Resolution return a value (no exception) whose
    [nansum] runs over the non-empty bins only: the empty bins are dropped
    from the sum. *)
Theorem empty_bins_excluded (b yt yp : list Qc) :
  monotone b = true -> length yt = length yp -> yp <> [] ->
  exists pos pof ff,
    mask_select yp (map is_one yt) = Ok pos
    /\ histogram pos b = Ok pof /\ histogram yp b = Ok ff
    /\ rel_freq pof ff
       = map (fun x => if Z.eqb (snd x) 0 then NaN else Fin (qz (fst x) / qz (snd x)))
             (combine pof ff)
    /\ reliability_call (init_binned b) yt yp
       = Ok (Fin (1 / qn (length yp)
                  * qsum (map rel_term
                            (filter nonempty_bin
                               (combine ff (combine pof (bin_centers_of b)))))))
    /\ resolution_call (init_binned b) yt yp
       = Ok (f_div
               (Fin (1 / qn (length yp)
                     * qsum (map (res_term (climatology yt))
                               (filter nonempty_bin (combine ff pof)))))
               (Fin (climatology yt * (1 - climatology yt)))).
Proof.
  intros Hm Hlen Hne. exact (binned_calls_nonempty_bins b yt yp Hm Hlen Hne).
Qed.

Lemma empty_bins_excluded_witness :
  monotone default_bins = true
  /\ exists pos pof ff,
    mask_select [q (15 # 100); q (85 # 100)] (map is_one [0; 1]) = Ok pos
    /\ histogram pos default_bins = Ok pof
    /\ histogram [q (15 # 100); q (85 # 100)] default_bins = Ok ff
    /\ rel_freq pof ff
       = map (fun x => if Z.eqb (snd x) 0 then NaN else Fin (qz (fst x) / qz (snd x)))
             (combine pof ff)
    /\ reliability_call (init_binned default_bins) [0; 1] [q (15 # 100); q (85 # 100)]
       = Ok (Fin (1 / qn 2
                  * qsum (map rel_term
                            (filter nonempty_bin
                               (combine ff (combine pof (bin_centers_of default_bins)))))))
    /\ resolution_call (init_binned default_bins) [0; 1] [q (15 # 100); q (85 # 100)]
       = Ok (f_div
               (Fin (1 / qn 2
                     * qsum (map (res_term (climatology [0; 1]))
                               (filter nonempty_bin (combine ff pof)))))
               (Fin (climatology [0; 1] * (1 - climatology [0; 1])))).
Proof.
  assert (H : monotone default_bins = true) by (vm_compute; reflexivity).
  split; [exact H|].
  apply (empty_bins_excluded default_bins [0; 1] [q (15 # 100); q (85 # 100)] H);
    [reflexivity | discriminate].
Defined.

(** ** Claim C9 *)

Lemma in_combine_swap {A B} (a : list A) (b : list B) x y :
  In (x, y) (combine a b) -> In (y, x) (combine b a).
Proof.
  revert b; induction a as [|u a IH]; intros [|v b] H; simpl in *; try contradiction.
  destruct H as [E|H]; [injection E as -> ->; left; reflexivity | right; apply IH, H].
Qed.

Lemma qsum_zero (l : list Qc) : (forall x, In x l -> x = 0) -> qsum l = 0.
Proof.
  induction l as [|x l IH]; intro H; [reflexivity|]. simpl.
  rewrite (H x (or_introl eq_refl)), IH by (intros y Hy; apply H; right; exact Hy).
  ring.
Qed.

(** C9: when the climatology (mean outcome) lies strictly between 0 and 1
    and every non-empty bin's observed relative frequency equals it,
    Resolution returns 0. *)
Theorem resolution_zero_without_skill (b yt yp pos : list Qc) (pof ff : list Z) :
  monotone b = true -> length yt = length yp -> yp <> [] ->
  mask_select yp (map is_one yt) = Ok pos ->
  histogram pos b = Ok pof -> histogram yp b = Ok ff ->
  (forall p f, In (p, f) (combine pof ff) -> f <> 0%Z -> qz p / qz f = climatology yt) ->
  0 < climatology yt < 1 ->
  resolution_call (init_binned b) yt yp = Ok (Fin 0).
Proof.
  intros Hm Hlen Hne Hpos Hpof Hff Hrel [Hc0 Hc1].
  destruct (binned_calls_nonempty_bins b yt yp Hm Hlen Hne)
    as (pos' & pof' & ff' & Hpos' & Hpof' & Hff' & _ & _ & Hres).
  rewrite Hpos in Hpos'. injection Hpos' as <-.
  rewrite Hpof in Hpof'. injection Hpof' as <-.
  rewrite Hff in Hff'. injection Hff' as <-.
  rewrite Hres. clear Hres.
  rewrite qsum_zero.
  - assert (Hu : 0 < climatology yt * (1 - climatology yt)) by (qc_unfold; nra).
    unfold f_div.
    assert (G : (climatology yt * (1 - climatology yt) ?= 0) = Gt)
      by (rewrite Qc_compare_Q; apply Qgt_alt; exact Hu).
    assert (Hu' : climatology yt * (1 - climatology yt) <> 0)
      by (apply Qclt_not_eq in Hu; intro Z; apply Hu; symmetry; exact Z).
    assert (Hn' : qn (length yp) <> 0)
      by (apply qn_nonzero; destruct yp; [congruence | simpl; lia]).
    rewrite G. f_equal. f_equal. field.
    split; [exact Hn'|]. split; intro Z; apply Qc_eq_Qeq in Z; qc_unfold; lra.
  - intros x Hx. apply in_map_iff in Hx. destruct Hx as ([f p] & <- & Hx).
    apply filter_In in Hx. destruct Hx as [Hin Hnz].
    unfold nonempty_bin, empty_bin in Hnz. cbn [fst] in Hnz.
    apply negb_true_iff, Z.eqb_neq in Hnz.
    cbn [res_term]. rewrite (Hrel p f (in_combine_swap _ _ _ _ Hin) Hnz). ring.
Qed.

Definition ex_yt : list Qc := [0; 1; 0; 1].
Definition ex_yp : list Qc := [q (15 # 100); q (15 # 100); q (85 # 100); q (85 # 100)].

Lemma resolution_zero_without_skill_witness :
  resolution_call (init_binned default_bins) ex_yt ex_yp = Ok (Fin 0).
Proof.
  apply (resolution_zero_without_skill default_bins ex_yt ex_yp [q (15 # 100); q (85 # 100)]
           [0; 1; 0; 0; 0; 0; 0; 0; 1; 0; 0]%Z [0; 2; 0; 0; 0; 0; 0; 0; 2; 0; 0]%Z).
  - vm_compute. reflexivity.
  - reflexivity.
  - discriminate.
  - vm_compute. reflexivity.
  - vm_compute. reflexivity.
  - vm_compute. reflexivity.
  - intros p f Hin Hf. simpl in Hin.
    repeat (destruct Hin as [E|Hin]; [injection E as <- <-|]); try contradiction;
      try (exfalso; apply Hf; reflexivity);
      apply Qc_decomp; vm_compute; reflexivity.
  - unfold Qclt. vm_compute. split; reflexivity.
Defined.

(** * Further properties of the scorers *)

(** Class attributes [is_lower_the_better], [minimum], [maximum]. *)
Record score_meta : Type := mk_meta {
  is_lower_the_better : bool;
  minimum : Qc;
  maximum : Qc
}.

Definition brier_meta : score_meta := mk_meta true 0 1.
Definition skill_meta : score_meta := mk_meta false (Qcopp 1) 1.
Definition reliability_meta : score_meta := mk_meta true 0 1.
Definition resolution_meta : score_meta := mk_meta false 0 1.

(** ** BrierSkillScore on aligned arrays *)

(** The finite value of [np.mean((y_true_proba.mean() - y_true_proba) ** 2)]. *)
Definition ref_var_value (y_true_proba : list Qc) : Qc :=
  qsum (map (fun y => (climatology y_true_proba - y) * (climatology y_true_proba - y))
            y_true_proba) / qn (length y_true_proba).

Lemma ref_variance_fin (yt : list Qc) :
  yt <> [] -> ref_variance yt = Fin (ref_var_value yt).
Proof.
  intro Hne. unfold ref_variance. rewrite np_mean_fin by exact Hne. fold (climatology yt).
  rewrite (map_ext _ (fun y => Fin ((climatology yt - y) * (climatology yt - y))))
    by reflexivity.
  rewrite <- (map_map (fun y => (climatology yt - y) * (climatology yt - y)) Fin).
  rewrite np_mean_fin.
  - rewrite length_map. reflexivity.
  - destruct yt; [congruence | discriminate].
Qed.

Lemma skill_call_aligned (yt yp : list Qc) :
  length yt = length yp -> yt <> [] ->
  skill_call yt yp
  = Ok (f_sub (Fin 1) (f_div (Fin (qsum (sq_errors yt yp) / qn (length yp)))
                              (Fin (ref_var_value yt)))).
Proof.
  intros Hlen Hne.
  assert (Hse : sq_errors yt yp <> []).
  { intro E. apply (f_equal (@length Qc)) in E.
    rewrite sq_errors_length in E by exact Hlen.
    destruct yt, yp; simpl in *; congruence. }
  assert (Hb := brier_call_aligned yt yp Hlen). unfold brier_call in Hb.
  rewrite bcast2_same_length in Hb by congruence. simpl bind in Hb.
  injection Hb as Hb.
  unfold skill_call. rewrite bcast2_same_length by congruence. simpl bind.
  rewrite Hb, np_mean_fin, sq_errors_length, ref_variance_fin by assumption.
  reflexivity.
Qed.

Lemma qsum_nonneg_zero (l : list Qc) :
  (forall x, In x l -> 0 <= x) -> qsum l = 0 -> forall x, In x l -> x = 0.
Proof.
  induction l as [|y l IH]; intros Hn Hs x Hx; [contradiction|].
  simpl in Hs. apply Qc_nonneg_sum_zero in Hs;
    [| apply Hn; left; reflexivity | apply qsum_nonneg; intros z Hz; apply Hn; right; exact Hz].
  destruct Hs as [Hy Hl]. destruct Hx as [<-|Hx]; [exact Hy|].
  apply IH; [intros z Hz; apply Hn; right; exact Hz | exact Hl | exact Hx].
Qed.

Lemma ref_var_value_pos (yt : list Qc) (a b : Qc) :
  In a yt -> In b yt -> a <> b -> 0 < ref_var_value yt.
Proof.
  intros Ha Hb Hab.
  assert (Hn : 0 < qn (length yt)) by (apply qn_pos; destruct yt; [contradiction | simpl; lia]).
  set (m := climatology yt).
  set (l := map (fun y => (m - y) * (m - y)) yt).
  assert (Hl : forall x, In x l -> 0 <= x).
  { intros x Hx. apply in_map_iff in Hx. destruct Hx as (y & <- & _). apply Qc_sq_nonneg. }
  assert (HS : qsum l <> 0).
  { intro HS. assert (Hz := qsum_nonneg_zero l Hl HS).
    assert (Ea : a = m).
    { symmetry. apply (proj1 (sq_zero_iff m a)). apply Hz, in_map_iff. exists a. auto. }
    assert (Eb : b = m).
    { symmetry. apply (proj1 (sq_zero_iff m b)). apply Hz, in_map_iff. exists b. auto. }
    congruence. }
  assert (HS0 : 0 <= qsum l) by (apply qsum_nonneg, Hl).
  unfold ref_var_value. fold m. fold l.
  assert (HSp : 0 < qsum l).
  { destruct (Qle_lt_or_eq _ _ HS0) as [H|H]; [exact H|].
    exfalso. apply HS. apply Qc_is_canon. symmetry. exact H. }
  qc_unfold. apply Qlt_shift_div_l; [exact Hn|]. lra.
Qed.

Lemma f_div_pos (a b : Qc) : 0 < b -> f_div (Fin a) (Fin b) = Fin (a / b).
Proof.
  intro H. unfold f_div.
  assert (G : (b ?= 0) = Gt) by (rewrite Qc_compare_Q; apply Qgt_alt; exact H).
  rewrite G. reflexivity.
Qed.

Lemma qsum_sq_errors_self (yt : list Qc) : qsum (sq_errors yt yt) = 0.
Proof. apply (qsum_sq_errors_zero_iff yt yt eq_refl). reflexivity. Qed.

(** X1: forecasts equal to the outcomes give a skill score of exactly 1 as
    soon as the outcomes are not all the same. *)
Theorem skill_perfect_forecast (yt : list Qc) (a b : Qc) :
  In a yt -> In b yt -> a <> b ->
  skill_call yt yt = Ok (Fin 1).
Proof.
  intros Ha Hb Hab.
  assert (Hv := ref_var_value_pos yt a b Ha Hb Hab).
  rewrite skill_call_aligned by (reflexivity || (destruct yt; [contradiction | discriminate])).
  rewrite qsum_sq_errors_self, f_div_pos by exact Hv.
  unfold f_sub, f_neg, f_add. apply (f_equal Ok), (f_equal Fin).
  assert (Hn : qn (length yt) <> 0) by (apply qn_nonzero; destruct yt; [contradiction | simpl; lia]).
  apply Qclt_not_eq in Hv.
  field. split; [exact Hn | intro Z; apply Hv; symmetry; exact Z].
Qed.

Lemma skill_perfect_forecast_witness :
  (In 0 [0; 1] /\ In 1 [0; 1] /\ (0:Qc) <> 1) /\ skill_call [0; 1] [0; 1] = Ok (Fin 1).
Proof.
  assert (H1 : In (0:Qc) [0; 1]) by (left; reflexivity).
  assert (H2 : In (1:Qc) [0; 1]) by (right; left; reflexivity).
  assert (H3 : (0:Qc) <> 1) by (intro E; apply Qc_eq_Qeq in E; discriminate).
  split; [auto|]. exact (skill_perfect_forecast [0; 1] 0 1 H1 H2 H3).
Defined.

Lemma sq_errors_repeat_left (yt : list Qc) (m : Qc) :
  sq_errors yt (repeat m (length yt)) = map (fun y => (m - y) * (m - y)) yt.
Proof.
  unfold sq_errors. induction yt as [|y yt IH]; [reflexivity|].
  simpl. f_equal. exact IH.
Qed.

(** X2: forecasting the climatology (the mean outcome) for every instance
    gives a skill score of exactly 0 when the outcomes are not all the same. *)
Theorem skill_climatology_forecast (yt : list Qc) (a b : Qc) :
  In a yt -> In b yt -> a <> b ->
  skill_call yt (repeat (climatology yt) (length yt)) = Ok (Fin 0).
Proof.
  intros Ha Hb Hab.
  assert (Hv := ref_var_value_pos yt a b Ha Hb Hab).
  assert (Hne : yt <> []) by (destruct yt; [contradiction | discriminate]).
  rewrite skill_call_aligned by (rewrite ?repeat_length; reflexivity || exact Hne).
  rewrite sq_errors_repeat_left, repeat_length. fold (ref_var_value yt).
  rewrite f_div_pos by exact Hv.
  unfold f_sub, f_neg, f_add. apply (f_equal Ok), (f_equal Fin).
  apply Qclt_not_eq in Hv. field. intro Z; apply Hv; symmetry; exact Z.
Qed.

Lemma skill_climatology_forecast_witness :
  (In 0 [0; 1; 1] /\ In 1 [0; 1; 1] /\ (0:Qc) <> 1)
  /\ skill_call [0; 1; 1] (repeat (climatology [0; 1; 1]) 3) = Ok (Fin 0).
Proof.
  assert (H1 : In (0:Qc) [0; 1; 1]) by (left; reflexivity).
  assert (H2 : In (1:Qc) [0; 1; 1]) by (right; left; reflexivity).
  assert (H3 : (0:Qc) <> 1) by (intro E; apply Qc_eq_Qeq in E; discriminate).
  split; [auto|]. exact (skill_climatology_forecast [0; 1; 1] 0 1 H1 H2 H3).
Defined.

(** X3: when the outcomes are not all the same, the skill score of any
    aligned forecast is a finite number no greater than the declared
    [maximum] of BrierSkillScore (1). *)
Theorem skill_at_most_maximum (yt yp : list Qc) (a b : Qc) :
  length yt = length yp -> In a yt -> In b yt -> a <> b ->
  exists s, skill_call yt yp = Ok (Fin s) /\ s <= maximum skill_meta.
Proof.
  intros Hlen Ha Hb Hab.
  assert (Hv := ref_var_value_pos yt a b Ha Hb Hab).
  assert (Hne : yt <> []) by (destruct yt; [contradiction | discriminate]).
  assert (Hn : 0 < qn (length yp))
    by (apply qn_pos; destruct yt, yp; simpl in *; [contradiction | lia..]).
  rewrite skill_call_aligned by assumption.
  rewrite f_div_pos by exact Hv.
  set (bs := qsum (sq_errors yt yp) / qn (length yp)).
  assert (Hbs : 0 <= bs) by (apply Qcdiv_nonneg; [apply qsum_nonneg, sq_errors_nonneg | exact Hn]).
  exists (1 - bs / ref_var_value yt). split; [reflexivity|].
  cbn [maximum skill_meta].
  assert (Hq : 0 <= bs / ref_var_value yt) by (apply Qcdiv_nonneg; assumption).
  qc_unfold. lra.
Qed.

Lemma skill_at_most_maximum_witness :
  exists s, skill_call [0; 1] [q (1 # 2); q (1 # 4)] = Ok (Fin s) /\ s <= maximum skill_meta.
Proof.
  apply (skill_at_most_maximum [0; 1] [q (1 # 2); q (1 # 4)] 0 1).
  - reflexivity.
  - left; reflexivity.
  - right; left; reflexivity.
  - intro E; apply Qc_eq_Qeq in E; discriminate.
Defined.

Lemma sq_dev_binary (m y : Qc) :
  y = 0 \/ y = 1 -> (m - y) * (m - y) = m * m - (m * y + m * y) + y.
Proof.
  intros [-> | ->]; ring.
Qed.

Lemma qsum_sq_dev_binary (m : Qc) (yt : list Qc) :
  (forall y, In y yt -> y = 0 \/ y = 1) ->
  qsum (map (fun y => (m - y) * (m - y)) yt)
  = qn (length yt) * (m * m) - (m * qsum yt + m * qsum yt) + qsum yt.
Proof.
  induction yt as [|y yt IH]; intro H; simpl.
  - replace (qn 0) with (0:Qc) by (apply Qc_decomp; reflexivity). ring.
  - rewrite IH by (intros z Hz; apply H; right; exact Hz).
    rewrite sq_dev_binary by (apply H; left; reflexivity).
    rewrite qn_S. ring.
Qed.

Lemma ref_var_value_binary (yt : list Qc) :
  yt <> [] -> (forall y, In y yt -> y = 0 \/ y = 1) ->
  ref_var_value yt = climatology yt * (1 - climatology yt).
Proof.
  intros Hne Hb.
  assert (Hn : qn (length yt) <> 0) by (apply qn_nonzero; destruct yt; [congruence | simpl; lia]).
  unfold ref_var_value. rewrite qsum_sq_dev_binary by exact Hb.
  unfold climatology. field. exact Hn.
Qed.





(** ** Broadcasting and errors of the direct calls *)

(** X5: a single outcome, or a single forecast, is broadcast by numpy
    against the whole other array: Brier score compares it with every entry
    of that array. *)
Theorem brier_single_value_broadcast (y p : Qc) (yt yp : list Qc) :
  brier_call [y] yp = Ok (np_mean (map (fun x => f_sq (Fin (x - y))) yp))
  /\ brier_call yt [p] = Ok (np_mean (map (fun t => f_sq (Fin (p - t))) yt)).
Proof.
  split; unfold brier_call, bcast2.
  - destruct yp as [|x [|x2 yp]]; [reflexivity | reflexivity|].
    cbn [length Nat.eqb bind]. rewrite map_map. reflexivity.
  - destruct yt as [|t [|t2 yt]]; [reflexivity | reflexivity|].
    cbn [length Nat.eqb bind]. rewrite map_map. reflexivity.
Qed.

(** X6: outcome and forecast arrays of different lengths, neither of length
    1, cannot be broadcast: both BrierScore and BrierSkillScore raise
    ValueError. *)
Theorem brier_skill_length_mismatch (yt yp : list Qc) :
  length yt <> length yp -> length yt <> 1%nat -> length yp <> 1%nat ->
  brier_call yt yp = Err ValueError /\ skill_call yt yp = Err ValueError.
Proof.
  intros Hne Ht Hp.
  assert (B : bcast2 Qcminus yp yt = Err ValueError).
  { unfold bcast2.
    destruct (Nat.eqb_spec (length yp) (length yt)) as [E|_]; [congruence|].
    destruct yp as [|x [|x2 yp]]; [| simpl in Hp; congruence |];
      (destruct yt as [|t [|t2 yt]]; [| simpl in Ht; congruence |]; reflexivity). }
  unfold brier_call, skill_call. rewrite B. split; reflexivity.
Qed.

Lemma brier_skill_length_mismatch_witness :
  (length [0; 1; 1] <> length [q (1 # 2); q (1 # 2)] /\ length [0; 1; 1] <> 1%nat
   /\ length [q (1 # 2); q (1 # 2)] <> 1%nat)
  /\ brier_call [0; 1; 1] [q (1 # 2); q (1 # 2)] = Err ValueError
  /\ skill_call [0; 1; 1] [q (1 # 2); q (1 # 2)] = Err ValueError.
Proof.
  assert (H1 : length [0; 1; 1] <> length [q (1 # 2); q (1 # 2)]) by (simpl; lia).
  assert (H2 : length [0; 1; 1] <> 1%nat) by (simpl; lia).
  assert (H3 : length [q (1 # 2); q (1 # 2)] <> 1%nat) by (simpl; lia).
  split; [auto|]. exact (brier_skill_length_mismatch _ _ H1 H2 H3).
Defined.

(** X7: Reliability and Resolution called directly on arrays of different
    lengths fail already at the mask [y_proba[y_true_proba == 1]], with
    IndexError (not the ValueError of the broadcasting scores), whatever the
    bins. *)
Theorem binned_length_mismatch_index_error (s : binned_scorer) (yt yp : list Qc) :
  length yt <> length yp ->
  reliability_call s yt yp = Err IndexError /\ resolution_call s yt yp = Err IndexError.
Proof.
  intro Hne.
  assert (M : mask_select yp (map is_one yt) = Err IndexError).
  { unfold mask_select. rewrite length_map.
    destruct (Nat.eqb_spec (length yp) (length yt)); [congruence | reflexivity]. }
  unfold reliability_call, resolution_call. rewrite M. split; reflexivity.
Qed.

Lemma binned_length_mismatch_index_error_witness :
  length [0; 1] <> length [q (1 # 2)]
  /\ reliability_call (init_binned default_bins) [0; 1] [q (1 # 2)] = Err IndexError
  /\ resolution_call (init_binned default_bins) [0; 1] [q (1 # 2)] = Err IndexError.
Proof.
  assert (H : length [0; 1] <> length [q (1 # 2)]) by (simpl; lia).
  split; [exact H|]. exact (binned_length_mismatch_index_error _ _ _ H).
Defined.

(** X8: bin edges that are not non-decreasing make [np.histogram] raise
    ValueError, so Reliability and Resolution raise ValueError on any
    aligned input. *)
Theorem binned_non_monotone_value_error (s : binned_scorer) (yt yp : list Qc) :
  length yt = length yp -> monotone (bins s) = false ->
  reliability_call s yt yp = Err ValueError /\ resolution_call s yt yp = Err ValueError.
Proof.
  intros Hlen Hm.
  unfold reliability_call, resolution_call.
  rewrite mask_select_aligned by exact Hlen. cbn [bind].
  unfold histogram. rewrite Hm. split; reflexivity.
Qed.

Lemma binned_non_monotone_value_error_witness :
  (length [0; 1] = length [q (1 # 4); q (3 # 4)] /\ monotone [1; 0] = false)
  /\ reliability_call (init_binned [1; 0]) [0; 1] [q (1 # 4); q (3 # 4)] = Err ValueError
  /\ resolution_call (init_binned [1; 0]) [0; 1] [q (1 # 4); q (3 # 4)] = Err ValueError.
Proof.
  assert (H1 : length [0; 1] = length [q (1 # 4); q (3 # 4)]) by reflexivity.
  assert (H2 : monotone (bins (init_binned [1; 0])) = false) by (vm_compute; reflexivity).
  split; [split; [exact H1 | exact H2]|].
  exact (binned_non_monotone_value_error (init_binned [1; 0]) _ _ H1 H2).
Defined.

(** ** Bin centers and histograms *)

Lemma bin_centers_of_bounds (b : list Qc) :
  Forall (fun c => 0 <= c <= 1) (bin_centers_of b).
Proof.
  unfold bin_centers_of. apply Forall_forall. intros c Hc.
  apply in_map_iff in Hc. destruct Hc as (c1 & <- & Hc1).
  apply in_map_iff in Hc1. destruct Hc1 as (r & <- & _).
  destruct (qlt_b 1 r) eqn:E1.
  - assert (G : qlt_b 1 0 = false) by reflexivity. rewrite G.
    split; [discriminate | apply Qcle_refl].
  - apply Bool.not_true_iff_false in E1. rewrite qlt_b_spec in E1.
    apply Qcnot_lt_le in E1.
    destruct (qlt_b r 0) eqn:E0.
    + split; [apply Qcle_refl | discriminate].
    + apply Bool.not_true_iff_false in E0. rewrite qlt_b_spec in E0.
      apply Qcnot_lt_le in E0. split; assumption.
Qed.

(** X9: whatever the bin edges given to the constructor, every stored bin
    center lies in [[0, 1]] (the clipping of [__init__]), and there is one
    center per bin. *)
Theorem init_binned_centers_in_unit_interval (b : list Qc) :
  Forall (fun c => 0 <= c <= 1) (bin_centers (init_binned b))
  /\ length (bin_centers (init_binned b)) = (length b - 1)%nat.
Proof.
  split; [apply bin_centers_of_bounds | apply length_bin_centers_of].
Qed.

Lemma monotone_first_last (lo : Qc) (t : list Qc) :
  monotone (lo :: t) = true -> qle_b lo (last t lo) = true.
Proof.
  revert lo; induction t as [|hi t IH]; intros lo Hm; [apply qle_b_spec, Qcle_refl|].
  simpl in Hm. apply andb_prop in Hm. destruct Hm as [Hlh Ht].
  destruct t as [|h2 t']; [exact Hlh|].
  specialize (IH hi Ht).
  rewrite (last_nonempty_default (h2 :: t') hi lo) in IH by discriminate.
  change (last (hi :: h2 :: t') lo) with (last (h2 :: t') lo).
  apply qle_b_spec. apply qle_b_spec in Hlh, IH. exact (Qcle_trans _ _ _ Hlh IH).
Qed.

(** X10: the counts of [np.histogram] over non-decreasing edges add up to
    the number of values lying between the first and the last edge, both
    included: the bins cover that interval without gap or overlap. *)
Theorem histogram_total (a : list Qc) (lo : Qc) (t : list Qc) (h : list Z) :
  t <> [] -> histogram a (lo :: t) = Ok h ->
  zsum h = Z.of_nat (length (filter (in_bin lo (last t lo) true) a)).
Proof.
  intros Hne Hh. unfold histogram in Hh.
  destruct (monotone (lo :: t)) eqn:Hm; [|discriminate].
  assert (E : hist_counts a (lo :: t) = h) by congruence. rewrite <- E.
  rewrite hist_counts_telescope by exact Hne.
  rewrite (count_le_split a lo (last t lo)) by (apply monotone_first_last, Hm).
  lia.
Qed.

Lemma histogram_total_witness :
  exists h, histogram [q (1 # 2); q 2; Qcopp 1; 1] default_bins = Ok h
  /\ zsum h = Z.of_nat (length (filter (in_bin 0 (q (11 # 10)) true)
                                   [q (1 # 2); q 2; Qcopp 1; 1])).
Proof.
  exists (hist_counts [q (1 # 2); q 2; Qcopp 1; 1] default_bins).
  assert (E : histogram [q (1 # 2); q 2; Qcopp 1; 1] default_bins
              = Ok (hist_counts [q (1 # 2); q 2; Qcopp 1; 1] default_bins))
    by (vm_compute; reflexivity).
  split; [exact E|].
  assert (Hl : last (tl default_bins) 0 = q (11 # 10)) by (apply Qc_decomp; vm_compute; reflexivity).
  rewrite <- Hl.
  apply (histogram_total _ 0 (tl default_bins)); [vm_compute; discriminate | exact E].
Defined.

(** ** Range of BrierScoreReliability *)

Lemma qz_this (z : Z) : this (qz z) = inject_Z z.
Proof. unfold qz, Q2Qc; cbn [this]. apply Qred_identity. exact (Z.gcd_1_r _). Qed.

Lemma qz_add (a b : Z) : qz (a + b) = qz a + qz b.
Proof.
  apply Qc_is_canon. unfold Qcplus, Q2Qc. cbn [this]. rewrite Qred_correct, !qz_this.
  rewrite inject_Z_plus. reflexivity.
Qed.

Lemma qz_le (a b : Z) : (a <= b)%Z -> qz a <= qz b.
Proof.
  intro H. unfold Qcle. rewrite !qz_this. unfold Qle. simpl. lia.
Qed.

Lemma qz_lt (a b : Z) : (a < b)%Z -> qz a < qz b.
Proof.
  intro H. unfold Qclt. rewrite !qz_this. unfold Qlt. simpl. lia.
Qed.

Lemma qz_zero : qz 0 = 0.
Proof. apply Qc_decomp. reflexivity. Qed.

Lemma count_le_length (a : list Qc) (e : Qc) : (count_le a e <= length a)%nat.
Proof. unfold count_le. induction a as [|x a IH]; simpl; [lia|]. destruct (qle_b x e); simpl; lia. Qed.

Lemma zsum_hist_counts (a : list Qc) (lo : Qc) (t : list Qc) :
  t <> [] -> monotone (lo :: t) = true ->
  zsum (hist_counts a (lo :: t)) = Z.of_nat (length (filter (in_bin lo (last t lo) true) a)).
Proof.
  intros Hne Hm.
  rewrite hist_counts_telescope by exact Hne.
  rewrite (count_le_split a lo (last t lo)) by (apply monotone_first_last, Hm).
  lia.
Qed.

Lemma zsum_hist_counts_le (a edges : list Qc) :
  monotone edges = true -> (zsum (hist_counts a edges) <= Z.of_nat (length a))%Z.
Proof.
  intro Hm. destruct edges as [|lo t]; [simpl; lia|].
  destruct t as [|hi t]; [simpl; lia|].
  rewrite zsum_hist_counts by (discriminate || exact Hm).
  pose proof (filter_length_le (in_bin lo (last (hi :: t) lo) true) a). lia.
Qed.

(** The positive-outcome forecasts, a masked sub-array of the forecasts,
    give per-bin counts between 0 and the forecasts' own counts. *)
Lemma hist_counts_mask_le (edges yp : list Qc) (m : list bool) :
  monotone edges = true ->
  Forall2 (fun p f => (0 <= p <= f)%Z)
    (hist_counts (map fst (filter snd (combine yp m))) edges) (hist_counts yp edges).
Proof.
  set (pos := map fst (filter snd (combine yp m))).
  induction edges as [|lo t IH]; intro Hm; [constructor|].
  destruct t as [|hi t']; [constructor|].
  simpl in Hm. apply andb_prop in Hm. destruct Hm as [Hlh Ht].
  destruct t' as [|h2 t''].
  - cbn [hist_counts]. constructor; [|constructor].
    rewrite !(count_le_split _ lo hi Hlh).
    pose proof (filter_mask_le (in_bin lo hi true) yp m). fold pos in H. lia.
  - change (hist_counts pos (lo :: hi :: h2 :: t''))
      with ((Z.of_nat (count_lt pos hi) - Z.of_nat (count_lt pos lo))%Z
            :: hist_counts pos (hi :: h2 :: t'')).
    change (hist_counts yp (lo :: hi :: h2 :: t''))
      with ((Z.of_nat (count_lt yp hi) - Z.of_nat (count_lt yp lo))%Z
            :: hist_counts yp (hi :: h2 :: t'')).
    constructor; [|apply IH, Ht].
    rewrite !(count_lt_split _ lo hi Hlh).
    pose proof (filter_mask_le (in_bin lo hi false) yp m). fold pos in H. lia.
Qed.

Lemma rel_term_bounds (f p : Z) (c : Qc) :
  (0 < f)%Z -> (0 <= p <= f)%Z -> 0 <= c <= 1 ->
  0 <= rel_term (f, (p, c)) <= qz f.
Proof.
  intros Hf [Hp0 Hpf] [Hc0 Hc1]. cbn [rel_term].
  assert (Hf' : 0 < qz f) by (rewrite <- qz_zero; apply qz_lt, Hf).
  set (r := qz p / qz f).
  assert (Hr0 : 0 <= r)
    by (apply Qcdiv_nonneg; [rewrite <- qz_zero; apply qz_le, Hp0 | exact Hf']).
  assert (Hr1 : r <= 1) by (apply Qcdiv_le_1; [exact Hf' | apply qz_le, Hpf]).
  assert (Hs := sq_error_le_1 c r (conj Hc0 Hc1) (conj Hr0 Hr1)).
  assert (Hs0 := Qc_sq_nonneg (c - r)).
  qc_unfold. split; nra.
Qed.

Lemma zsum_nonneg (pof ff : list Z) :
  Forall2 (fun p f => (0 <= p <= f)%Z) pof ff -> (0 <= zsum ff)%Z.
Proof. induction 1 as [|p f pof ff H _ IH]; unfold zsum in *; simpl; lia. Qed.

Lemma rel_sum_bounds (pof ff : list Z) (cs : list Qc) :
  Forall2 (fun p f => (0 <= p <= f)%Z) pof ff -> Forall (fun c => 0 <= c <= 1) cs ->
  0 <= qsum (map rel_term (filter nonempty_bin (combine ff (combine pof cs))))
  <= qz (zsum ff).
Proof.
  intro HF. revert cs.
  induction HF as [|p f pof ff Hpf HF IH]; intros cs Hcs.
  - change (zsum []) with 0%Z. rewrite qz_zero. split; apply Qcle_refl.
  - destruct cs as [|c cs].
    + cbn [combine filter map qsum fold_right]. split; [apply Qcle_refl|].
      rewrite <- qz_zero. apply qz_le.
      pose proof (zsum_nonneg _ _ HF). unfold zsum in *. simpl. lia.
    + inversion Hcs as [|c' cs' Hc Hcs']; subst c' cs'.
      specialize (IH cs Hcs').
      change (zsum (f :: ff)) with (f + zsum ff)%Z. rewrite qz_add.
      cbn [combine filter].
      destruct (nonempty_bin (f, (p, c))) eqn:Ene;
        unfold nonempty_bin, empty_bin in Ene; cbn [fst] in Ene.
      * apply negb_true_iff, Z.eqb_neq in Ene.
        cbn [map qsum fold_right]. fold (qsum (map rel_term
          (filter nonempty_bin (combine ff (combine pof cs))))).
        assert (Ht := rel_term_bounds f p c ltac:(lia) Hpf Hc).
        destruct IH as [I0 I1]. destruct Ht as [T0 T1].
        qc_unfold. split; lra.
      * apply negb_false_iff, Z.eqb_eq in Ene. subst f. rewrite qz_zero.
        destruct IH as [I0 I1].
        qc_unfold. change (this 0) with 0%Q in *. split; lra.
Qed.

(** X11: whatever bin edges the scorer is built with and whatever the
    input, a value returned by BrierScoreReliability is a finite number
    within its declared range [[minimum, maximum]] = [[0, 1]]. *)
Theorem reliability_within_declared_range (b yt yp : list Qc) (r : f64) :
  reliability_call (init_binned b) yt yp = Ok r ->
  exists x, r = Fin x /\ minimum reliability_meta <= x <= maximum reliability_meta.
Proof.
  intro H.
  assert (Hlen : length yt = length yp).
  { unfold reliability_call, mask_select in H. rewrite length_map in H.
    destruct (Nat.eqb_spec (length yp) (length yt)); [congruence | discriminate]. }
  assert (Hm : monotone b = true).
  { unfold reliability_call in H. rewrite mask_select_aligned in H by exact Hlen.
    cbn [bind bins init_binned] in H. unfold histogram in H.
    destruct (monotone b); [reflexivity | discriminate]. }
  assert (Hne : yp <> []).
  { intro E. subst yp. destruct yt; [|discriminate].
    unfold reliability_call in H. cbn in H. unfold histogram in H. rewrite Hm in H.
    cbn in H. discriminate. }
  destruct (binned_calls_nonempty_bins b yt yp Hm Hlen Hne)
    as (pos & pof & ff & Hpos & Hpof & Hff & _ & Hrel & _).
  rewrite Hrel in H. injection H as <-.
  eexists; split; [reflexivity|]. cbn [minimum maximum reliability_meta].
  rewrite mask_select_aligned in Hpos by exact Hlen. injection Hpos as <-.
  unfold histogram in Hpof, Hff. rewrite Hm in Hpof, Hff.
  injection Hpof as <-. injection Hff as <-.
  assert (HS := rel_sum_bounds _ _ (bin_centers_of b)
                  (hist_counts_mask_le b yp (map is_one yt) Hm) (bin_centers_of_bounds b)).
  assert (Hz : qz (zsum (hist_counts yp b)) <= qn (length yp))
    by (apply qz_le, zsum_hist_counts_le, Hm).
  assert (Hn : 0 < qn (length yp)) by (apply qn_pos; destruct yp; [congruence | simpl; lia]).
  destruct HS as [S0 S1].
  set (S := qsum _) in *.
  assert (HSn : S <= qn (length yp)) by exact (Qcle_trans _ _ _ S1 Hz).
  qc_unfold. change (this 0) with 0%Q. change (this 1) with 1%Q.
  set (n := this (qn (length yp))) in *.
  assert (Hi : (0 < / n)%Q) by (apply Qinv_lt_0_compat; exact Hn).
  assert (Hin : (n * / n == 1)%Q) by (apply Qmult_inv_r; intro Z; rewrite Z in Hn; discriminate).
  split; nra.
Qed.

Lemma reliability_within_declared_range_witness :
  exists x,
    reliability_call (init_binned default_bins) [0; 1] [q (15 # 100); q (85 # 100)]
    = Ok (Fin x)
    /\ minimum reliability_meta <= x <= maximum reliability_meta.
Proof.
  pose (r := match reliability_call (init_binned default_bins) [0; 1]
                     [q (15 # 100); q (85 # 100)] with Ok v => v | Err _ => NaN end).
  assert (E : reliability_call (init_binned default_bins) [0; 1] [q (15 # 100); q (85 # 100)]
              = Ok r) by (vm_compute; reflexivity).
  destruct (reliability_within_declared_range default_bins [0; 1]
              [q (15 # 100); q (85 # 100)] r E) as (x & Ex & Bx).
  exists x. rewrite E, Ex. split; [reflexivity | exact Bx].
Defined.

(** ** Reliability of a calibrated forecast *)

(** X12: when every non-empty bin's observed relative frequency equals the
    bin's stored center, Reliability returns exactly 0. *)
Theorem reliability_zero_when_calibrated (b yt yp pos : list Qc) (pof ff : list Z) :
  monotone b = true -> length yt = length yp -> yp <> [] ->
  mask_select yp (map is_one yt) = Ok pos ->
  histogram pos b = Ok pof -> histogram yp b = Ok ff ->
  (forall f p c, In (f, (p, c)) (combine ff (combine pof (bin_centers_of b))) ->
                 f <> 0%Z -> qz p / qz f = c) ->
  reliability_call (init_binned b) yt yp = Ok (Fin 0).
Proof.
  intros Hm Hlen Hne Hpos Hpof Hff Hcal.
  destruct (binned_calls_nonempty_bins b yt yp Hm Hlen Hne)
    as (pos' & pof' & ff' & Hpos' & Hpof' & Hff' & _ & Hrel & _).
  rewrite Hpos in Hpos'. injection Hpos' as <-.
  rewrite Hpof in Hpof'. injection Hpof' as <-.
  rewrite Hff in Hff'. injection Hff' as <-.
  rewrite Hrel, qsum_zero.
  - apply (f_equal Ok), (f_equal Fin). ring.
  - intros x Hx. apply in_map_iff in Hx. destruct Hx as ([f [p c]] & <- & Hx).
    apply filter_In in Hx. destruct Hx as [Hin Hnz].
    unfold nonempty_bin, empty_bin in Hnz. cbn [fst] in Hnz.
    apply negb_true_iff, Z.eqb_neq in Hnz.
    cbn [rel_term]. rewrite (Hcal f p c Hin Hnz). ring.
Qed.

Lemma reliability_zero_when_calibrated_witness :
  reliability_call (init_binned [0; q 10]) [0; 1] [q (1 # 2); q (1 # 2)] = Ok (Fin 0).
Proof.
  apply (reliability_zero_when_calibrated [0; q 10] [0; 1] [q (1 # 2); q (1 # 2)]
           [q (1 # 2)] [1%Z] [2%Z]).
  - vm_compute. reflexivity.
  - reflexivity.
  - discriminate.
  - vm_compute. reflexivity.
  - vm_compute. reflexivity.
  - vm_compute. reflexivity.
  - intros f p c Hin Hf. simpl in Hin.
    destruct Hin as [E|[]]. injection E as <- <- <-.
    apply Qc_decomp. vm_compute. reflexivity.
Defined.

(** ** Resolution on constant outcomes *)

Lemma climatology_repeat (c : Qc) (n : nat) :
  (0 < n)%nat -> climatology (repeat c n) = c.
Proof.
  intro H. unfold climatology. rewrite qsum_repeat, repeat_length.
  field. apply qn_nonzero, H.
Qed.

Lemma mask_repeat_zero (yp : list Qc) :
  map fst (filter snd (combine yp (map is_one (repeat 0 (length yp))))) = [].
Proof. induction yp as [|x yp IH]; [reflexivity|]. exact IH. Qed.

Lemma mask_repeat_one (yp : list Qc) :
  map fst (filter snd (combine yp (map is_one (repeat 1 (length yp))))) = yp.
Proof. induction yp as [|x yp IH]; [reflexivity|]. simpl. f_equal. exact IH. Qed.

Lemma hist_counts_nil (edges : list Qc) : Forall (fun z => z = 0%Z) (hist_counts [] edges).
Proof.
  induction edges as [|lo t IH]; [constructor|].
  destruct t as [|hi t']; [constructor|].
  destruct t' as [|h2 t''].
  - constructor; constructor.
  - change (hist_counts [] (lo :: hi :: h2 :: t''))
      with ((Z.of_nat (count_lt [] hi) - Z.of_nat (count_lt [] lo))%Z
            :: hist_counts [] (hi :: h2 :: t'')).
    constructor; [reflexivity | exact IH].
Qed.

Lemma in_combine_diag {A} (l : list A) (x y : A) : In (x, y) (combine l l) -> x = y.
Proof.
  assert (G : forall l1 l2 : list A, l1 = l2 -> In (x, y) (combine l1 l2) -> x = y).
  { intros l1 l2 E; subst l2. induction l1 as [|u l1 IH]; simpl; [contradiction|].
    intros [E|H]; [injection E as <- <-; reflexivity | exact (IH H)]. }
  apply (G l l eq_refl).
Qed.

(** X13: when all outcomes are 0, or all are 1, the uncertainty term
    [climo * (1 - climo)] is 0 and so is the weighted sum, so Resolution
    returns NaN (0 / 0) rather than raising. *)
Theorem resolution_constant_outcomes_nan (b yp : list Qc) (c : Qc) :
  monotone b = true -> yp <> [] -> c = 0 \/ c = 1 ->
  resolution_call (init_binned b) (repeat c (length yp)) yp = Ok NaN.
Proof.
  intros Hm Hne Hc.
  assert (Hn : (0 < length yp)%nat) by (destruct yp; [congruence | simpl; lia]).
  assert (Hlen : length (repeat c (length yp)) = length yp) by apply repeat_length.
  destruct (binned_calls_nonempty_bins b (repeat c (length yp)) yp Hm Hlen Hne)
    as (pos & pof & ff & Hpos & Hpof & Hff & _ & _ & Hres).
  rewrite Hres. clear Hres.
  rewrite climatology_repeat by exact Hn.
  rewrite mask_select_aligned in Hpos by exact Hlen. injection Hpos as Hpos.
  unfold histogram in Hpof, Hff. rewrite Hm in Hpof, Hff.
  injection Hpof as Hpof. injection Hff as Hff.
  rewrite qsum_zero.
  - assert (U : c * (1 - c) = 0) by (destruct Hc as [-> | ->]; ring).
    rewrite U. assert (Z0 : 1 / qn (length yp) * 0 = 0) by ring. rewrite Z0.
    reflexivity.
  - intros x Hx. apply in_map_iff in Hx. destruct Hx as ([f p] & <- & Hx).
    apply filter_In in Hx. destruct Hx as [Hin Hnz].
    unfold nonempty_bin, empty_bin in Hnz. cbn [fst] in Hnz.
    apply negb_true_iff, Z.eqb_neq in Hnz.
    assert (Hf : qz f <> 0).
    { intro E. apply Hnz. apply Qc_eq_Qeq in E. rewrite qz_this in E.
      unfold Qeq in E. simpl in E. lia. }
    cbn [res_term]. destruct Hc as [-> | ->].
    + rewrite mask_repeat_zero in Hpos. subst pos pof.
      apply in_combine_r in Hin.
      assert (Hp := proj1 (Forall_forall _ _) (hist_counts_nil b) p Hin).
      cbn beta in Hp. subst p. rewrite qz_zero. field. exact Hf.
    + rewrite mask_repeat_one in Hpos. subst pos pof ff.
      apply in_combine_diag in Hin. subst p. field. exact Hf.
Qed.

Lemma resolution_constant_outcomes_nan_witness :
  (monotone default_bins = true /\ [q (1 # 4); q (3 # 4)] <> [] /\ ((1:Qc) = 0 \/ (1:Qc) = 1))
  /\ resolution_call (init_binned default_bins) (repeat 1 2) [q (1 # 4); q (3 # 4)] = Ok NaN.
Proof.
  assert (H1 : monotone default_bins = true) by (vm_compute; reflexivity).
  assert (H2 : [q (1 # 4); q (3 # 4)] <> []) by discriminate.
  assert (H3 : (1:Qc) = 0 \/ (1:Qc) = 1) by (right; reflexivity).
  split; [auto|]. exact (resolution_constant_outcomes_nan default_bins _ 1 H1 H2 H3).
Defined.

(** ** [valid_indexes] as an index array *)

Lemma take_indexes_out_of_range {A} (a : list A) (ix : list nat) (i : nat) :
  In i ix -> (length a <= i)%nat -> take_indexes a ix = Err IndexError.
Proof.
  intros Hi Hl. induction ix as [|j ix IH]; [contradiction|].
  cbn [take_indexes]. destruct Hi as [->|Hi].
  - rewrite (proj2 (nth_error_None a i) Hl). reflexivity.
  - destruct (nth_error a j); [|reflexivity]. rewrite (IH Hi). reflexivity.
Qed.

Lemma take_indexes_err {A} (a : list A) (ix : list nat) (e : pyerr) :
  take_indexes a ix = Err e -> e = IndexError.
Proof.
  induction ix as [|j ix IH]; cbn [take_indexes]; [discriminate|].
  destruct (nth_error a j); [|congruence].
  destruct (take_indexes a ix); cbn [bind]; [discriminate | intro E; apply IH; congruence].
Qed.

Lemma take_indexes_in_range {A} (a : list A) (ix : list nat) (d : A) :
  (forall i, In i ix -> (i < length a)%nat) ->
  take_indexes a ix = Ok (map (fun i => nth i a d) ix).
Proof.
  induction ix as [|j ix IH]; intro H; [reflexivity|].
  cbn [take_indexes map].
  rewrite (nth_error_nth' a d (H j (or_introl eq_refl))).
  rewrite IH by (intros i Hi; apply H; right; exact Hi). reflexivity.
Qed.

(** X14: an index array holding a position past the end of the predictions
    or of the ground truths makes every [score_function] raise IndexError,
    before the scorer's formula runs. *)
Theorem score_function_index_out_of_range
    (call : list Qc -> list Qc -> result f64) (gt : ground_truths) (pr : predictions)
    (ix : list nat) (i : nat) :
  In i ix ->
  (length (y_pred pr) <= i)%nat \/ (length (y_pred_label_index gt) <= i)%nat ->
  score_function call gt pr (Some (IndexArray ix)) = Err IndexError.
Proof.
  intros Hi [Hp|Ht]; unfold score_function; cbn [sel_of select].
  - rewrite (take_indexes_out_of_range _ ix i Hi Hp). reflexivity.
  - destruct (take_indexes (y_pred pr) ix) eqn:E; cbn [bind].
    + rewrite (take_indexes_out_of_range _ ix i Hi Ht). reflexivity.
    + rewrite (take_indexes_err _ _ _ E). reflexivity.
Qed.

Lemma score_function_index_out_of_range_witness :
  (In 4%nat [0; 4]%nat /\ ((length (y_pred ex_pr4) <= 4)%nat
                         \/ (length (y_pred_label_index ex_gt4) <= 4)%nat))
  /\ brier_score_function ex_gt4 ex_pr4 (Some (IndexArray [0; 4]%nat)) = Err IndexError.
Proof.
  assert (H1 : In 4%nat [0; 4]%nat) by (right; left; reflexivity).
  assert (H2 : (length (y_pred ex_pr4) <= 4)%nat
               \/ (length (y_pred_label_index ex_gt4) <= 4)%nat) by (left; simpl; lia).
  split; [auto|]. exact (score_function_index_out_of_range brier_call _ _ _ 4 H1 H2).
Defined.

(** X15: with an index array whose positions are all in range, every
    [score_function] scores the selected instances, in the order of the
    array and with repetitions kept: the second-class probabilities of the
    selected prediction rows against the selected label indexes. *)
Theorem score_function_index_array
    (call : list Qc -> list Qc -> result f64) (gt : ground_truths) (pr : predictions)
    (ix : list nat) :
  (forall i, In i ix ->
     (i < length (y_pred pr))%nat /\ (i < length (y_pred_label_index gt))%nat) ->
  score_function call gt pr (Some (IndexArray ix))
  = call (map (fun i => nth i (y_pred_label_index gt) 0) ix)
         (map (fun i => snd (nth i (y_pred pr) (0, 0))) ix).
Proof.
  intro H. unfold score_function. cbn [sel_of select].
  rewrite (take_indexes_in_range (y_pred pr) ix (0, 0)) by (intros i Hi; apply H, Hi).
  rewrite (take_indexes_in_range (y_pred_label_index gt) ix 0) by (intros i Hi; apply H, Hi).
  cbn [bind]. unfold check_y_pred_dimensions. rewrite !length_map, Nat.eqb_refl.
  cbn [bind]. rewrite map_map. reflexivity.
Qed.

Lemma score_function_index_array_witness :
  brier_score_function ex_gt4 ex_pr4 (Some (IndexArray [3; 0; 3]%nat))
  = brier_call (map (fun i => nth i (y_pred_label_index ex_gt4) 0) [3; 0; 3]%nat)
               (map (fun i => snd (nth i (y_pred ex_pr4) (0, 0))) [3; 0; 3]%nat).
Proof.
  apply (score_function_index_array brier_call ex_gt4 ex_pr4 [3; 0; 3]%nat).
  intros i Hi. simpl in Hi. simpl. lia.
Defined.

(** ** Symmetry and composition of the Brier scores *)

Lemma f_sq_sub_sym (a b : Qc) : f_sq (Fin (a - b)) = f_sq (Fin (b - a)).
Proof. unfold f_sq, f_mul. f_equal. ring. Qed.

Lemma map_sq_zip_sym (a b : list Qc) :
  map (fun e => f_sq (Fin e)) (zip_with Qcminus a b)
  = map (fun e => f_sq (Fin e)) (zip_with Qcminus b a).
Proof.
  revert b; induction a as [|x a IH]; intros [|y b]; try reflexivity.
  cbn [zip_with map]. rewrite f_sq_sub_sym, IH. reflexivity.
Qed.

(** X16: BrierScore does not depend on which argument holds the outcomes
    and which the forecasts: swapping them gives the same result, the same
    broadcasting and the same errors. *)
Theorem brier_call_symmetric (yt yp : list Qc) : brier_call yt yp = brier_call yp yt.
Proof.
  unfold brier_call, bcast2. rewrite (Nat.eqb_sym (length yt) (length yp)).
  destruct (Nat.eqb (length yp) (length yt)) eqn:E.
  - cbn [bind]. rewrite map_sq_zip_sym. reflexivity.
  - destruct yp as [|x [|x2 yp]], yt as [|t [|t2 yt]]; cbn [bind];
      try reflexivity; try discriminate E;
      rewrite !map_map; f_equal; f_equal; apply map_ext; intro; apply f_sq_sub_sym.
Qed.

(** X17: the reference [bs_c] of BrierSkillScore is exactly the Brier score
    of the constant forecast equal to the climatology (the mean outcome),
    for any outcome array, empty or not. *)
Theorem brier_climatology_forecast_is_reference (yt : list Qc) :
  brier_call yt (repeat (climatology yt) (length yt)) = Ok (ref_variance yt).
Proof.
  destruct yt as [|y yt']; [reflexivity|].
  set (yt := y :: yt').
  assert (Hne : yt <> []) by discriminate.
  rewrite brier_call_aligned by (rewrite repeat_length; reflexivity).
  rewrite sq_errors_repeat_left, ref_variance_fin by exact Hne.
  rewrite np_mean_fin.
  - rewrite length_map. reflexivity.
  - subst yt. discriminate.
Qed.

(** ** Bin centers depend on the bin widths only *)

Lemma removelast_map {A B} (f : A -> B) (l : list A) :
  removelast (map f l) = map f (removelast l).
Proof.
  induction l as [|x l IH]; [reflexivity|].
  destruct l as [|y l]; [reflexivity|].
  change (removelast (map f (x :: y :: l))) with (f x :: removelast (map f (y :: l))).
  rewrite IH. reflexivity.
Qed.

Lemma zip_with_map {A B C} (f : A -> B) (g : B -> B -> C) (a b : list A) :
  zip_with g (map f a) (map f b) = zip_with (fun x y => g (f x) (f y)) a b.
Proof.
  revert b; induction a as [|x a IH]; intros [|y b]; simpl; f_equal; auto.
Qed.

(** X18: shifting all bin edges by the same amount leaves the stored bin
    centers unchanged: [(bins[1:] - bins[:-1]) * 0.05] depends on the bin
    widths only, not on where the bins lie. *)
Theorem bin_centers_shift_invariant (b : list Qc) (d : Qc) :
  bin_centers (init_binned (map (fun x => x + d) b)) = bin_centers (init_binned b).
Proof.
  cbn [bin_centers init_binned]. unfold bin_centers_of.
  replace (tl (map (fun x => x + d) b)) with (map (fun x => x + d) (tl b))
    by (destruct b; reflexivity).
  rewrite removelast_map, zip_with_map.
  rewrite (zip_with_ext (fun x y => ((x + d) - (y + d)) * Q2Qc (1 # 20))
                        (fun hi lo => (hi - lo) * Q2Qc (1 # 20)))
    by (intros x y; ring).
  reflexivity.
Qed.

(** ** Range of BrierScoreResolution *)

Lemma qsum_binary_mask (yt yp : list Qc) :
  length yt = length yp -> (forall y, In y yt -> y = 0 \/ y = 1) ->
  qsum yt = qn (length (map fst (filter snd (combine yp (map is_one yt))))).
Proof.
  revert yp; induction yt as [|y yt IH]; intros [|x yp] Hlen Hb; simpl in Hlen;
    try discriminate.
  - apply Qc_decomp. reflexivity.
  - injection Hlen as Hlen.
    assert (IH' := IH yp Hlen (fun z Hz => Hb z (or_intror Hz))).
    cbn [qsum fold_right map combine filter]. fold (qsum yt). rewrite IH'.
    destruct (Hb y (or_introl eq_refl)) as [-> | ->].
    + change (is_one 0) with false. cbn [snd]. ring.
    + change (is_one 1) with true. cbn [snd map length]. rewrite qn_S. ring.
Qed.

Lemma mask_length_le (yp : list Qc) (m : list bool) :
  (length (map fst (filter snd (combine yp m))) <= length yp)%nat.
Proof.
  revert m; induction yp as [|x yp IH]; intros [|b m]; simpl; try lia.
  specialize (IH m). destruct b; simpl; lia.
Qed.

Lemma filter_mask_diff (P : Qc -> bool) (yp : list Qc) (m : list bool) :
  (length (filter P yp) + length (map fst (filter snd (combine yp m)))
   <= length yp + length (filter P (map fst (filter snd (combine yp m)))))%nat.
Proof.
  revert m; induction yp as [|x yp IH]; intros [|b m].
  - simpl. lia.
  - simpl. lia.
  - pose proof (filter_length_le P (x :: yp)).
    set (L := filter P (x :: yp)) in *.
    change (combine (x :: yp) []) with (@nil (Qc * bool)). cbn [filter map length].
    cbn [length] in H. lia.
  - specialize (IH m). cbn [combine]. destruct b; cbn [filter snd map fst length];
      destruct (P x); cbn [filter length]; lia.
Qed.

Lemma hist_mask_total (edges yp : list Qc) (m : list bool) :
  monotone edges = true ->
  (zsum (hist_counts yp edges)
   - zsum (hist_counts (map fst (filter snd (combine yp m))) edges)
   <= Z.of_nat (length yp) - Z.of_nat (length (map fst (filter snd (combine yp m)))))%Z.
Proof.
  intro Hm. pose proof (mask_length_le yp m).
  destruct edges as [|lo t]; [simpl; lia|].
  destruct t as [|hi t]; [simpl; lia|].
  rewrite !zsum_hist_counts by (discriminate || exact Hm).
  pose proof (filter_mask_diff (in_bin lo (last (hi :: t) lo) true) yp m). lia.
Qed.

Lemma res_term_bounds (c : Qc) (f p : Z) :
  (0 < f)%Z -> (0 <= p <= f)%Z ->
  0 <= res_term c (f, p) <= qz p * ((1 - c) * (1 - c)) + (qz f - qz p) * (c * c).
Proof.
  intros Hf [Hp0 Hpf]. cbn [res_term].
  assert (Hf' : 0 < qz f) by (rewrite <- qz_zero; apply qz_lt, Hf).
  assert (HfZ : qz f <> 0) by (intro E; rewrite E in Hf'; apply (Qclt_not_eq _ _ Hf'); reflexivity).
  set (r := qz p / qz f).
  assert (Hr0 : 0 <= r)
    by (apply Qcdiv_nonneg; [rewrite <- qz_zero; apply qz_le, Hp0 | exact Hf']).
  assert (Hr1 : r <= 1) by (apply Qcdiv_le_1; [exact Hf' | apply qz_le, Hpf]).
  assert (Hp : qz p = r * qz f) by (unfold r; field; exact HfZ).
  rewrite Hp.
  assert (D : r * qz f * ((1 - c) * (1 - c)) + (qz f - r * qz f) * (c * c)
              - qz f * ((r - c) * (r - c)) = qz f * (r * (1 - r))) by ring.
  assert (Hs0 := Qc_sq_nonneg (r - c)).
  assert (Hd : 0 <= qz f * (r * (1 - r))).
  { qc_unfold. apply Qmult_le_0_compat; [lra|]. apply Qmult_le_0_compat; lra. }
  rewrite <- D in Hd.
  qc_unfold. split; [nra | lra].
Qed.

Lemma res_sum_bounds (pof ff : list Z) (c : Qc) :
  Forall2 (fun p f => (0 <= p <= f)%Z) pof ff ->
  0 <= qsum (map (res_term c) (filter nonempty_bin (combine ff pof)))
  <= qz (zsum pof) * ((1 - c) * (1 - c)) + (qz (zsum ff) - qz (zsum pof)) * (c * c).
Proof.
  induction 1 as [|p f pof ff Hpf HF IH].
  - change (zsum []) with 0%Z. rewrite qz_zero.
    replace (0 * ((1 - c) * (1 - c)) + (0 - 0) * (c * c)) with (0:Qc) by ring.
    split; apply Qcle_refl.
  - change (zsum (p :: pof)) with (p + zsum pof)%Z.
    change (zsum (f :: ff)) with (f + zsum ff)%Z. rewrite !qz_add.
    cbn [combine filter].
    destruct (nonempty_bin (f, p)) eqn:Ene;
      unfold nonempty_bin, empty_bin in Ene; cbn [fst] in Ene.
    + apply negb_true_iff, Z.eqb_neq in Ene.
      cbn [map qsum fold_right].
      fold (qsum (map (res_term c) (filter nonempty_bin (combine ff pof)))).
      assert (Ht := res_term_bounds c f p ltac:(lia) Hpf).
      set (S := qsum _) in *. set (A := (1 - c) * (1 - c)) in *. set (B := c * c) in *.
      assert (E : (qz p + qz (zsum pof)) * A + (qz f + qz (zsum ff) - (qz p + qz (zsum pof))) * B
                  = (qz p * A + (qz f - qz p) * B)
                    + (qz (zsum pof) * A + (qz (zsum ff) - qz (zsum pof)) * B)) by ring.
      rewrite E. destruct IH as [I0 I1]. destruct Ht as [T0 T1].
      clearbody S A B. qc_unfold. split; lra.
    + apply negb_false_iff, Z.eqb_eq in Ene. subst f.
      assert (p = 0%Z) by lia. subst p. rewrite qz_zero.
      replace ((0 + qz (zsum pof)) * ((1 - c) * (1 - c))
               + (0 + qz (zsum ff) - (0 + qz (zsum pof))) * (c * c))
        with (qz (zsum pof) * ((1 - c) * (1 - c))
              + (qz (zsum ff) - qz (zsum pof)) * (c * c)) by ring.
      exact IH.
Qed.

(** X19: when the outcomes are 0/1 label indexes, not all equal, a value
    returned by BrierScoreResolution is a finite number within its declared
    range [[minimum, maximum]] = [[0, 1]], whatever bin edges the scorer is
    built with: the weighted spread of the observed frequencies never exceeds
    the uncertainty [climo * (1 - climo)]. *)
Theorem resolution_within_declared_range (b yt yp : list Qc) (r : f64) :
  (forall y, In y yt -> y = 0 \/ y = 1) -> In 0 yt -> In 1 yt ->
  resolution_call (init_binned b) yt yp = Ok r ->
  exists x, r = Fin x /\ minimum resolution_meta <= x <= maximum resolution_meta.
Proof.
  intros Hb H0 H1 H.
  assert (Hlen : length yt = length yp).
  { unfold resolution_call, mask_select in H. rewrite length_map in H.
    destruct (Nat.eqb_spec (length yp) (length yt)); [congruence | discriminate]. }
  assert (Hm : monotone b = true).
  { unfold resolution_call in H. rewrite mask_select_aligned in H by exact Hlen.
    cbn [bind bins init_binned] in H. unfold histogram in H.
    destruct (monotone b); [reflexivity | discriminate]. }
  assert (Hne : yp <> []).
  { intro E. subst yp. destruct yt; [contradiction | discriminate]. }
  destruct (binned_calls_nonempty_bins b yt yp Hm Hlen Hne)
    as (pos & pof & ff & Hpos & Hpof & Hff & _ & _ & Hres).
  rewrite Hres in H. injection H as <-.
  rewrite mask_select_aligned in Hpos by exact Hlen. injection Hpos as Hpos.
  unfold histogram in Hpof, Hff. rewrite Hm in Hpof, Hff.
  injection Hpof as Hpof. injection Hff as Hff.
  set (c := climatology yt) in *.
  assert (H01 : (0:Qc) <> 1) by (intro E; apply Qc_eq_Qeq in E; discriminate).
  assert (Hyt : yt <> []) by (destruct yt; [contradiction | discriminate]).
  assert (HU : 0 < c * (1 - c)).
  { unfold c. rewrite <- ref_var_value_binary by assumption.
    exact (ref_var_value_pos yt 0 1 H0 H1 H01). }
  assert (HN1 : c * qn (length yp) = qn (length pos)).
  { unfold c, climatology. rewrite <- Hpos, <- qsum_binary_mask, <- Hlen by assumption.
    field. apply qn_nonzero. destruct yt; [congruence | simpl; lia]. }
  assert (HS := res_sum_bounds pof ff c
                  ltac:(rewrite <- Hpof, <- Hff, <- Hpos; apply hist_counts_mask_le, Hm)).
  assert (HP : qz (zsum pof) <= qn (length pos))
    by (rewrite <- Hpof; apply qz_le, zsum_hist_counts_le, Hm).
  assert (HF : qz (zsum ff) - qz (zsum pof) <= qn (length yp) - qn (length pos)).
  { assert (T := hist_mask_total b yp (map is_one yt) Hm). rewrite Hpos in T.
    rewrite <- Hpof, <- Hff.
    assert (T' := qz_le _ _ T). rewrite <- Z.add_opp_r, !qz_add in T'.
    replace (qz (- zsum (hist_counts pos b))) with (- qz (zsum (hist_counts pos b))) in T'
      by (apply Qc_is_canon; unfold Qcopp, Q2Qc; cbn [this];
          rewrite Qred_correct, !qz_this, inject_Z_opp; reflexivity).
    replace (qz (Z.of_nat (length yp) - Z.of_nat (length pos)))
      with (qn (length yp) - qn (length pos)) in T'
      by (rewrite <- Z.add_opp_r, qz_add;
          apply Qc_is_canon; unfold Qcminus, Qcplus, Qcopp, Q2Qc; cbn [this];
          rewrite !Qred_correct, !qz_this, !qn_this, inject_Z_opp; reflexivity).
    exact T'. }
  assert (Hn : 0 < qn (length yp)) by (apply qn_pos; destruct yp; [congruence | simpl; lia]).
  destruct HS as [S0 S1].
  set (S := qsum _) in *.
  assert (G : (c * (1 - c) ?= Q2Qc 0) = Gt)
    by (rewrite Qc_compare_Q; apply Qgt_alt; exact HU).
  rewrite G.
  eexists; split; [reflexivity|]. cbn [minimum maximum resolution_meta].
  set (P := qz (zsum pof)) in *. set (F := qz (zsum ff)) in *.
  set (N := qn (length yp)) in *. set (N1 := qn (length pos)) in *.
  clearbody S P F N N1 c.
  apply Qc_eq_Qeq in HN1. clear Hres G Hb H0 H1 H01.
  assert (A0 := Qc_sq_nonneg (1 - c)). assert (B0 := Qc_sq_nonneg c).
  qc_unfold. change (this 0) with 0%Q in *. change (this 1) with 1%Q in *.
  assert (HPA : (0 <= (this N1 - this P) * ((1 + - this c) * (1 + - this c)))%Q)
    by (apply Qmult_le_0_compat; lra).
  assert (HFB : (0 <= (this N + - this N1 - (this F + - this P)) * (this c * this c))%Q)
    by (apply Qmult_le_0_compat; lra).
  assert (HSN : (this S <= this N * (this c * (1 + - this c)))%Q) by nra.
  assert (Hi : (0 < / this N)%Q) by (apply Qinv_lt_0_compat; exact Hn).
  assert (Hin : (this N * / this N == 1)%Q)
    by (apply Qmult_inv_r; intro Z; rewrite Z in Hn; discriminate).
  assert (X0 : (0 <= 1 * / this N * this S)%Q) by nra.
  assert (X1 : (1 * / this N * this S <= this c * (1 + - this c))%Q) by nra.
  split.
  - apply Qle_shift_div_l; [exact HU|]. lra.
  - apply Qle_shift_div_r; [exact HU|]. lra.
Qed.

Lemma resolution_within_declared_range_witness :
  exists x,
    resolution_call (init_binned default_bins) [0; 1; 1] [q (15 # 100); q (85 # 100); q (1 # 2)]
    = Ok (Fin x)
    /\ minimum resolution_meta <= x <= maximum resolution_meta.
Proof.
  pose (r := match resolution_call (init_binned default_bins) [0; 1; 1]
                     [q (15 # 100); q (85 # 100); q (1 # 2)] with Ok v => v | Err _ => NaN end).
  assert (E : resolution_call (init_binned default_bins) [0; 1; 1]
                [q (15 # 100); q (85 # 100); q (1 # 2)] = Ok r) by (vm_compute; reflexivity).
  assert (Hb : forall y, In y [0; 1; 1] -> y = 0 \/ y = 1)
    by (intros y [<-|[<-|[<-|[]]]]; auto).
  destruct (resolution_within_declared_range default_bins [0; 1; 1]
              [q (15 # 100); q (85 # 100); q (1 # 2)] r Hb
              (or_introl eq_refl) (or_intror (or_introl eq_refl)) E) as (x & Ex & Bx).
  exists x. rewrite E, Ex. split; [reflexivity | exact Bx].
Defined.

(** ** Outcomes seen by Reliability *)


